(** * list_refresher: the playlist refresh workflow of [list_refresher.py]

    A shallow embedding of [SpotifyPlaylistRefresher] and the properties of
    its three methods: [extract_playlist_id], [get_playlist_tracks] and
    [refresh_playlist].

    - Python strings are [string]s, lists are [list]s.  A character with a
      code below 128 is that ASCII character; a character with a code from
      128 on stands for a byte of the command line or of the environment
      that did not decode, which Python keeps as a lone surrogate.
    - Standard output is UTF-8, Python's default: it takes every fixed
      text of the program and every text the service sends, and refuses a
      text of the user that holds a lone surrogate ([print] then raises
      [UnicodeEncodeError]).
    - The two regular-expression features the code uses (a literal text
      followed by the group [([a-zA-Z0-9]+)], searched with [re.search]) are
      written out as functions on strings.
    - The Spotify client [self.sp] is a collaborator of the class.  It is
      modelled by a [World]: the remote playlist, a schedule that tells
      which remote call fails, the history of the calls issued so far, and
      the lines printed so far.  Methods are computations in a state and
      exception monad over [World]. *)

From Stdlib Require Import List String Ascii Arith Bool Lia Permutation.
Import ListNotations.

Local Open Scope string_scope.
Local Open Scope list_scope.
Local Open Scope nat_scope.

(* ================================================================== *)
(** ** Regular expressions of [extract_playlist_id] *)

(** The character class [[a-zA-Z0-9]]. *)
Definition alnum (c : ascii) : bool :=
  let n := nat_of_ascii c in
  ((48 <=? n) && (n <=? 57)) || ((65 <=? n) && (n <=? 90))
  || ((97 <=? n) && (n <=? 122)).

(** [strip_prefix lit s]: the literal text [lit] matched at the very start
    of [s]; the result is what follows it. *)
Fixpoint strip_prefix (lit s : string) : option string :=
  match lit with
  | EmptyString => Some s
  | String a lit' =>
      match s with
      | EmptyString => None
      | String b s' => if Ascii.eqb a b then strip_prefix lit' s' else None
      end
  end.

(** The longest run of characters satisfying [f] at the start of [s]: what a
    greedy [[...]+] consumes when nothing follows it in the pattern. *)
Fixpoint take_while (f : ascii -> bool) (s : string) : string :=
  match s with
  | EmptyString => EmptyString
  | String c s' => if f c then String c (take_while f s') else EmptyString
  end.

Definition nonempty (s : string) : bool :=
  match s with EmptyString => false | String _ _ => true end.

(** The pattern [lit([a-zA-Z0-9]+)] matched at the start of [s]; the result
    is [match.group(1)]. *)
Definition match_here (lit s : string) : option string :=
  match strip_prefix lit s with
  | Some rest =>
      let g := take_while alnum rest in
      if nonempty g then Some g else None
  | None => None
  end.

(** [re.search(pattern, s)] for the pattern [lit([a-zA-Z0-9]+)]: the match
    at the leftmost position of [s] where there is one. *)
Fixpoint re_search (lit s : string) : option string :=
  match match_here lit s with
  | Some g => Some g
  | None =>
      match s with
      | EmptyString => None
      | String _ s' => re_search lit s'
      end
  end.

(* ================================================================== *)
(** ** The Spotify client and the world it acts on *)

(** What the service knows about a URI: the fields of [item['track']] other
    than the URI itself.  [m_id] is [None] for a local file. *)
Record Meta := mkMeta {
  m_id : option string;
  m_name : string;
  m_artists : list string
}.

(** The dictionary [item['track']] of a playlist item. *)
Record TrackObj := mkTrackObj {
  o_id : option string;
  o_uri : string;
  o_name : string;
  o_artists : list string
}.

(** A playlist item as a page lists it; [None] is [item['track'] is None]. *)
Definition Item := option TrackObj.

(** One page of [playlist_tracks]: [results['items']] and [results['next']]
    (the link to the next page is the offset it starts at). *)
Record Page := mkPage {
  items : list Item;
  next : option nat
}.

(** The dictionaries [get_playlist_tracks] builds. *)
Record Track := mkTrack {
  track_id : string;
  track_uri : string;
  track_name : string;
  track_artists : list string
}.

(** The remote calls of the client. *)
Inductive Call :=
| Playlist (playlist_id : string)
| PlaylistTracks (playlist_id : string)
| Next (offset : nat)
| RemoveAllOccurrences (playlist_id : string) (batch : list string)
| AddItems (playlist_id : string) (batch : list string).

Inductive exn :=
| ValueError (playlist_url : string)
| SpotifyException (c : Call)
| UnicodeEncodeError (text : string)
| SpotifyOauthError.

(** The lines [refresh_playlist] prints. *)
Inductive Msg :=
| MsgWorkingWith (playlist_id : string)
| MsgPlaylist (name owner : string)
| MsgNoTracks
| MsgFound (n : nat)
| MsgRemoving
| MsgReadding
| MsgSuccess (name : string)
| MsgError (e : exn).

Record World := mkWorld {
  w_id : string;                       (* identifier of the hosted playlist *)
  w_name : string;
  w_owner : string;
  w_uris : list string;                (* its entries, in playlist order *)
  w_catalog : string -> option Meta;   (* what the service knows of a URI *)
  w_limit : nat;                       (* items per page *)
  w_faults : nat -> bool;              (* does the n-th call issued fail? *)
  w_log : list (Call * bool);          (* calls issued, oldest first; the
                                          flag tells whether it succeeded *)
  w_out : list Msg                     (* lines printed, oldest first *)
}.

Definition record_call (c : Call) (ok : bool) (w : World) : World :=
  mkWorld (w_id w) (w_name w) (w_owner w) (w_uris w) (w_catalog w)
          (w_limit w) (w_faults w) (w_log w ++ [(c, ok)]) (w_out w).

Definition set_uris (us : list string) (w : World) : World :=
  mkWorld (w_id w) (w_name w) (w_owner w) us (w_catalog w)
          (w_limit w) (w_faults w) (w_log w) (w_out w).

Definition emit (m : Msg) (w : World) : World :=
  mkWorld (w_id w) (w_name w) (w_owner w) (w_uris w) (w_catalog w)
          (w_limit w) (w_faults w) (w_log w) (w_out w ++ [m]).

(** Results of a computation: a value, a raised exception, or a loop that
    was still running when the fuel of the model ran out. *)
Inductive Res (A : Type) :=
| Val (a : A)
| Exc (e : exn)
| OutOfFuel.
Arguments Val {A} a.
Arguments Exc {A} e.
Arguments OutOfFuel {A}.

Definition M (A : Type) := World -> Res A * World.

Definition ret {A} (a : A) : M A := fun w => (Val a, w).

Definition raise {A} (e : exn) : M A := fun w => (Exc e, w).

Definition bind {A B} (m : M A) (k : A -> M B) : M B :=
  fun w =>
    match m w with
    | (Val a, w') => k a w'
    | (Exc e, w') => (Exc e, w')
    | (OutOfFuel, w') => (OutOfFuel, w')
    end.

(** [try: m except Exception as e: h e]. *)
Definition try_except {A} (m : M A) (h : exn -> M A) : M A :=
  fun w =>
    match m w with
    | (Exc e, w') => h e w'
    | r => r
    end.

(** Can standard output encode the text [s]?  It can unless [s] holds a
    character that stands for a byte that did not decode. *)
Fixpoint encodable (s : string) : bool :=
  match s with
  | EmptyString => true
  | String c s' => (nat_of_ascii c <? 128) && encodable s'
  end.

(** The text of the user that a line repeats: the only one is the error
    line of the [ValueError] of [extract_playlist_id], whose message ends
    with the reference. *)
Definition echo (m : Msg) : option string :=
  match m with
  | MsgError (ValueError playlist_url) => Some playlist_url
  | _ => None
  end.

(** [print(...)]: the line is written, unless standard output cannot
    encode it; then nothing is written and [UnicodeEncodeError] is
    raised. *)
Definition print (m : Msg) : M unit :=
  fun w =>
    match echo m with
    | Some text =>
        if encodable text then (Val tt, emit m w)
        else (Exc (UnicodeEncodeError text), w)
    | None => (Val tt, emit m w)
    end.

Notation "x <- m ;; k" := (bind m (fun x => k))
  (at level 61, m at next level, right associativity).
Notation "m ;;; k" := (bind m (fun _ => k))
  (at level 61, right associativity).

(** [for x in xs: body x]. *)
Fixpoint for_each {A} (xs : list A) (body : A -> M unit) : M unit :=
  match xs with
  | [] => ret tt
  | x :: xs' => body x ;;; for_each xs' body
  end.

(** The item the service lists for the entry [u]. *)
Definition item_of (catalog : string -> option Meta) (u : string) : Item :=
  match catalog u with
  | Some m => Some (mkTrackObj (m_id m) u (m_name m) (m_artists m))
  | None => None
  end.

(** The page that starts at [offset]. *)
Definition page_at (w : World) (offset : nat) : Page :=
  mkPage (map (item_of (w_catalog w)) (firstn (w_limit w) (skipn offset (w_uris w))))
         (if offset + w_limit w <? List.length (w_uris w)
          then Some (offset + w_limit w) else None).

Definition mem (u : string) (us : list string) : bool :=
  existsb (String.eqb u) us.

(** What a call that succeeds does to the entries of the playlist. *)
Definition effect (c : Call) (us : list string) : list string :=
  match c with
  | RemoveAllOccurrences _ batch => filter (fun u => negb (mem u batch)) us
  | AddItems _ batch => us ++ batch
  | _ => us
  end.

(** A remote call: it fails when the schedule says so or when it names a
    playlist the service does not host; otherwise it answers and takes
    effect.  Either way it is recorded in the history. *)
Definition invoke {A} (c : Call) (known : bool) (reply : World -> A) : M A :=
  fun w =>
    if w_faults w (List.length (w_log w)) || negb known
    then (Exc (SpotifyException c), record_call c false w)
    else (Val (reply w), record_call c true (set_uris (effect c (w_uris w)) w)).

Definition hosted (playlist_id : string) (w : World) : bool :=
  String.eqb playlist_id (w_id w).

(** [self.sp.playlist(playlist_id)]: the name and the owner's display name. *)
Definition sp_playlist (playlist_id : string) : M (string * string) :=
  fun w => invoke (Playlist playlist_id) (hosted playlist_id w)
                  (fun w => (w_name w, w_owner w)) w.

(** [self.sp.playlist_tracks(playlist_id)]: the first page. *)
Definition sp_playlist_tracks (playlist_id : string) : M Page :=
  fun w => invoke (PlaylistTracks playlist_id) (hosted playlist_id w)
                  (fun w => page_at w 0) w.

(** [self.sp.next(results)], where [results['next']] is [offset]. *)
Definition sp_next (offset : nat) : M Page :=
  invoke (Next offset) true (fun w => page_at w offset).

Definition sp_playlist_remove_all_occurrences_of_items
    (playlist_id : string) (batch : list string) : M unit :=
  fun w => invoke (RemoveAllOccurrences playlist_id batch)
                  (hosted playlist_id w) (fun _ => tt) w.

Definition sp_playlist_add_items
    (playlist_id : string) (batch : list string) : M unit :=
  fun w => invoke (AddItems playlist_id batch)
                  (hosted playlist_id w) (fun _ => tt) w.

(* ================================================================== *)
(** ** [SpotifyPlaylistRefresher] *)

(** The literal texts of the three patterns; each is followed by the group
    [([a-zA-Z0-9]+)]. *)
Definition patterns : list string :=
  [ "spotify:playlist:";
    "open.spotify.com/playlist/";
    "spotify.com/playlist/" ].

(** The loop of [extract_playlist_id] over a list of patterns. *)
Fixpoint extract_with (pats : list string) (playlist_url : string) : Res string :=
  match pats with
  | [] => Exc (ValueError playlist_url)
  | pattern :: pats' =>
      match re_search pattern playlist_url with
      | Some g => Val g
      | None => extract_with pats' playlist_url
      end
  end.

Definition extract_playlist_id (playlist_url : string) : Res string :=
  extract_with patterns playlist_url.

(** Python's truth value of [item['track']['id']]: [None] and the empty
    string are false. *)
Definition truthy (o : option string) : bool :=
  match o with
  | Some s => nonempty s
  | None => false
  end.

(** [item['track'] and item['track']['id']], and the dictionary appended
    when it holds. *)
Definition keep (it : Item) : option Track :=
  match it with
  | Some t =>
      match o_id t with
      | Some i => if nonempty i
                  then Some (mkTrack i (o_uri t) (o_name t) (o_artists t))
                  else None
      | None => None
      end
  | None => None
  end.

(** The [for item in results['items']] loop: the tracks it appends. *)
Fixpoint page_tracks (its : list Item) : list Track :=
  match its with
  | [] => []
  | it :: its' =>
      match keep it with
      | Some t => t :: page_tracks its'
      | None => page_tracks its'
      end
  end.

(** The [while results] loop of [get_playlist_tracks]; one unit of fuel per
    page. *)
Fixpoint pages_loop (fuel : nat) (results : Page) (tracks : list Track)
    : M (list Track) :=
  match fuel with
  | 0 => fun w => (OutOfFuel, w)
  | S fuel' =>
      let tracks' := tracks ++ page_tracks (items results) in
      match next results with
      | Some offset =>
          results' <- sp_next offset ;;
          pages_loop fuel' results' tracks'
      | None => ret tracks'
      end
  end.

Definition get_playlist_tracks (fuel : nat) (playlist_id : string)
    : M (list Track) :=
  results <- sp_playlist_tracks playlist_id ;;
  pages_loop fuel results [].

(** [range(start, stop, step)] for a positive [step]. *)
Fixpoint range_from (n i stop step : nat) : list nat :=
  match n with
  | 0 => []
  | S n' => if i <? stop then i :: range_from n' (i + step) stop step else []
  end.

Definition range (start stop step : nat) : list nat :=
  range_from stop start stop step.

(** [l[i:j]]. *)
Definition slice {A} (l : list A) (i j : nat) : list A :=
  firstn (j - i) (skipn i l).

(** The batches both mutation loops go through:
    [track_uris[i:i+100] for i in range(0, len(track_uris), 100)]. *)
Definition batches (track_uris : list string) : list (list string) :=
  map (fun i => slice track_uris i (i + 100))
      (range 0 (List.length track_uris) 100).

(** The body of the [try] block of [refresh_playlist]. *)
Definition refresh_body (fuel : nat) (playlist_url : string) : M bool :=
  playlist_id <- (fun w => (extract_playlist_id playlist_url, w)) ;;
  print (MsgWorkingWith playlist_id) ;;;
  playlist_info <- sp_playlist playlist_id ;;
  print (MsgPlaylist (fst playlist_info) (snd playlist_info)) ;;;
  tracks <- get_playlist_tracks fuel playlist_id ;;
  match tracks with
  | [] => print MsgNoTracks ;;; ret false
  | _ :: _ =>
      print (MsgFound (List.length tracks)) ;;;
      let track_uris := map track_uri tracks in
      print MsgRemoving ;;;
      for_each (range 0 (List.length track_uris) 100)
        (fun i => sp_playlist_remove_all_occurrences_of_items playlist_id
                    (slice track_uris i (i + 100))) ;;;
      print MsgReadding ;;;
      for_each (range 0 (List.length track_uris) 100)
        (fun i => sp_playlist_add_items playlist_id
                    (slice track_uris i (i + 100))) ;;;
      print (MsgSuccess (fst playlist_info)) ;;;
      ret true
  end.

Definition refresh_playlist (fuel : nat) (playlist_url : string) : M bool :=
  try_except (refresh_body fuel playlist_url)
             (fun e => print (MsgError e) ;;; ret false).

(* ================================================================== *)
(** ** Inputs used to exercise the statements *)

Definition all_alnum (s : string) : bool :=
  String.eqb (take_while alnum s) s.

(** The references that denote the playlist [pid]: the service URI, and the
    web link with either host. *)
Definition references (pid : string) : list string :=
  [ ("spotify:playlist:" ++ pid)%string;
    ("https://open.spotify.com/playlist/" ++ pid)%string;
    ("https://spotify.com/playlist/" ++ pid)%string ].

(** [url] contains the pattern [lit([a-zA-Z0-9]+)] somewhere. *)
Definition occurs (lit url : string) : Prop :=
  exists pre c rest,
    url = (pre ++ lit ++ String c rest)%string /\ alnum c = true.

(** [g] is a longest run of alphanumeric characters in front of [rest]. *)
Definition maximal_run (g rest : string) : Prop :=
  nonempty g = true /\ all_alnum g = true /\ take_while alnum rest = EmptyString.

(** The literal text ends with a character outside [[a-zA-Z0-9]]. *)
Fixpoint ends_nonalnum (lit : string) : bool :=
  match lit with
  | EmptyString => false
  | String a EmptyString => negb (alnum a)
  | String _ lit' => ends_nonalnum lit'
  end.

Definition starts_nonalnum (s : string) : bool :=
  match s with
  | EmptyString => false
  | String c _ => negb (alnum c)
  end.

(** Where [re_search lit] matches in a text [t ++ pid] whose tail [pid] is
    an identifier: the leftmost place of [t] where [lit] is found and is not
    followed by a character of [t] outside the class.  The result is what
    is left of [t] after [lit]. *)
Fixpoint locate (lit t : string) : option string :=
  match
    match strip_prefix lit t with
    | Some r => if starts_nonalnum r then None else Some r
    | None => None
    end
  with
  | Some r => Some r
  | None =>
      match t with
      | EmptyString => None
      | String _ t' => locate lit t'
      end
  end.

(* ================================================================== *)
(** ** Vocabulary for runs of the workflow *)

Definition trace := list (Call * bool)%type.

Definition is_mutation (c : Call) : bool :=
  match c with
  | RemoveAllOccurrences _ _ | AddItems _ _ => true
  | _ => false
  end.

(** The mutation calls of a trace, in the order they were issued. *)
Definition mutations (tr : trace) : list Call :=
  filter is_mutation (map fst tr).

Definition fetch_only (tr : trace) : Prop :=
  Forall (fun e => is_mutation (fst e) = false) tr.

Definition all_ok (tr : trace) : Prop :=
  Forall (fun e => snd e = true) tr.

Definition succeeded (cs : list Call) : trace :=
  map (fun c => (c, true)) cs.

(** The playlist after the calls of a trace: the calls that succeeded took
    effect, in order, and nothing else happened to it. *)
Definition replay (tr : trace) (us : list string) : list string :=
  fold_left (fun us (e : Call * bool) => if snd e then effect (fst e) us else us)
            tr us.

(** The world after a run that issued the calls [tr] and printed [msgs]. *)
Definition advance (tr : trace) (msgs : list Msg) (w : World) : World :=
  mkWorld (w_id w) (w_name w) (w_owner w) (replay tr (w_uris w))
          (w_catalog w) (w_limit w) (w_faults w)
          (w_log w ++ tr) (w_out w ++ msgs).

(** The calls a run issued: what it added to the history. *)
Definition calls_of (w w' : World) : trace :=
  skipn (List.length (w_log w)) (w_log w').

(** An entry is eligible when the service lists a track with a non-empty
    id for it. *)
Definition eligible (catalog : string -> option Meta) (u : string) : bool :=
  match catalog u with
  | Some m => truthy (m_id m)
  | None => false
  end.

Definition eligible_uris (w : World) : list string :=
  filter (eligible (w_catalog w)) (w_uris w).

Definition skipped_uris (w : World) : list string :=
  filter (fun u => negb (eligible (w_catalog w) u)) (w_uris w).

(** The tracks of the entries [us], as [get_playlist_tracks] builds them. *)
Definition tracks_of (catalog : string -> option Meta) (us : list string)
    : list Track :=
  page_tracks (map (item_of catalog) us).

(** The fetch calls of a complete enumeration: the first page, then the
    pages at [range(limit, len, limit)]. *)
Definition fetch_calls (w : World) : list Call :=
  PlaylistTracks (w_id w)
  :: map Next (range (w_limit w) (List.length (w_uris w)) (w_limit w)).

(** The mutation calls of a complete refresh: one removal per batch, then
    one addition per batch. *)
Definition removal_calls (pid : string) (uris : list string) : list Call :=
  map (RemoveAllOccurrences pid) (batches uris).

Definition insertion_calls (pid : string) (uris : list string) : list Call :=
  map (AddItems pid) (batches uris).

Definition no_faults (w : World) : Prop :=
  forall n, w_faults w n = false.

(** The ways a run of [refresh_playlist] on the world [w] can go: its
    result, the calls it issues and the lines it prints. *)
Inductive refresh_run (fuel : nat) (w : World) (playlist_url : string)
    : Res bool -> trace -> list Msg -> Prop :=
| run_unresolved e :
    extract_playlist_id playlist_url = Exc e ->
    encodable playlist_url = true ->
    refresh_run fuel w playlist_url (Val false) [] [MsgError e]
| run_unprintable e :
    extract_playlist_id playlist_url = Exc e ->
    encodable playlist_url = false ->
    refresh_run fuel w playlist_url
      (Exc (UnicodeEncodeError playlist_url)) [] []
| run_metadata_failed pid :
    extract_playlist_id playlist_url = Val pid ->
    refresh_run fuel w playlist_url (Val false)
      [(Playlist pid, false)]
      [MsgWorkingWith pid; MsgError (SpotifyException (Playlist pid))]
| run_fetch_failed pid ftr c :
    extract_playlist_id playlist_url = Val pid ->
    fetch_only ftr -> all_ok ftr -> is_mutation c = false ->
    refresh_run fuel w playlist_url (Val false)
      ((Playlist pid, true) :: ftr ++ [(c, false)])
      [MsgWorkingWith pid; MsgPlaylist (w_name w) (w_owner w);
       MsgError (SpotifyException c)]
| run_out_of_fuel pid ftr :
    extract_playlist_id playlist_url = Val pid ->
    fetch_only ftr -> all_ok ftr ->
    ~ (0 < w_limit w /\ List.length (w_uris w) < fuel) ->
    refresh_run fuel w playlist_url OutOfFuel
      ((Playlist pid, true) :: ftr)
      [MsgWorkingWith pid; MsgPlaylist (w_name w) (w_owner w)]
| run_empty pid ftr :
    extract_playlist_id playlist_url = Val pid ->
    fetch_only ftr -> all_ok ftr ->
    eligible_uris w = [] ->
    refresh_run fuel w playlist_url (Val false)
      ((Playlist pid, true) :: ftr)
      [MsgWorkingWith pid; MsgPlaylist (w_name w) (w_owner w); MsgNoTracks]
| run_remove_failed pid ftr pre b post :
    extract_playlist_id playlist_url = Val pid ->
    fetch_only ftr -> all_ok ftr ->
    eligible_uris w <> [] ->
    batches (eligible_uris w) = pre ++ b :: post ->
    refresh_run fuel w playlist_url (Val false)
      ((Playlist pid, true) :: ftr
       ++ succeeded (map (RemoveAllOccurrences pid) pre)
       ++ [(RemoveAllOccurrences pid b, false)])
      [MsgWorkingWith pid; MsgPlaylist (w_name w) (w_owner w);
       MsgFound (List.length (eligible_uris w)); MsgRemoving;
       MsgError (SpotifyException (RemoveAllOccurrences pid b))]
| run_add_failed pid ftr pre b post :
    extract_playlist_id playlist_url = Val pid ->
    fetch_only ftr -> all_ok ftr ->
    eligible_uris w <> [] ->
    batches (eligible_uris w) = pre ++ b :: post ->
    refresh_run fuel w playlist_url (Val false)
      ((Playlist pid, true) :: ftr
       ++ succeeded (removal_calls pid (eligible_uris w))
       ++ succeeded (map (AddItems pid) pre)
       ++ [(AddItems pid b, false)])
      [MsgWorkingWith pid; MsgPlaylist (w_name w) (w_owner w);
       MsgFound (List.length (eligible_uris w)); MsgRemoving; MsgReadding;
       MsgError (SpotifyException (AddItems pid b))]
| run_done pid ftr :
    extract_playlist_id playlist_url = Val pid ->
    fetch_only ftr -> all_ok ftr ->
    eligible_uris w <> [] ->
    refresh_run fuel w playlist_url (Val true)
      ((Playlist pid, true) :: ftr
       ++ succeeded (removal_calls pid (eligible_uris w))
       ++ succeeded (insertion_calls pid (eligible_uris w)))
      [MsgWorkingWith pid; MsgPlaylist (w_name w) (w_owner w);
       MsgFound (List.length (eligible_uris w)); MsgRemoving; MsgReadding;
       MsgSuccess (w_name w)].

(** The URIs a mutation call carries. *)
Definition batch_of (c : Call) : list string :=
  match c with
  | RemoveAllOccurrences _ batch | AddItems _ batch => batch
  | _ => []
  end.

(* ================================================================== *)
(** ** Sample worlds *)

(** A catalog: [spotify:track:X] is a track with id [X], [spotify:local:X]
    is a local file (no id), anything else is an entry without track. *)
Definition demo_catalog (u : string) : option Meta :=
  match strip_prefix "spotify:track:" u with
  | Some i => Some (mkMeta (Some i) u ["artist"%string])
  | None =>
      match strip_prefix "spotify:local:" u with
      | Some _ => Some (mkMeta None u [])
      | None => None
      end
  end.

Definition demo_url : string := "https://open.spotify.com/playlist/37i9dQZF1".

Definition demo_world (uris : list string) (limit : nat) (faults : nat -> bool)
    : World :=
  mkWorld "37i9dQZF1" "Mix" "owner" uris demo_catalog limit faults [] [].

Definition never : nat -> bool := fun _ => false.

(** 26 different track URIs, repeated. *)
Definition demo_uri (n : nat) : string :=
  ("spotify:track:" ++ String (ascii_of_nat (97 + n mod 26)) EmptyString)%string.

Definition demo_uris (n : nat) : list string := map demo_uri (seq 0 n).

(** Finds a given element in a list that has been computed. *)
Ltac pick := repeat first [left; reflexivity | right].

(* ================================================================== *)
(** ** [get_credentials] and [main] *)

(** The environment of the process: [os.getenv(key)] is [env key]. *)
Definition Env := string -> option string.

(** The lines printed by [get_credentials] and [main] themselves. *)
Inductive CliMsg :=
| CliMissingHeader                 (* "Missing required environment variables:" *)
| CliMissingVar (var : string)     (* "   - {var}" *)
| CliPleaseSet                     (* "Please set these environment variables:" *)
| CliExportId
| CliExportSecret
| CliExportRedirect
| CliUsingRedirect (redirect_uri : string).

(** How a function that may call [sys.exit] ends. *)
Inductive Outcome (A : Type) :=
| Returned (a : A)
| SysExit (code : nat).
Arguments Returned {A} a.
Arguments SysExit {A} code.

(** [get_credentials()]: the lines printed and the outcome.  The values
    returned are the ones [os.getenv] gave, so the first two are optional
    strings. *)
Definition get_credentials (env : Env)
    : list CliMsg * Outcome (option string * option string * string) :=
  let client_id := env "SPOTIFY_CLIENT_ID"%string in
  let client_secret := env "SPOTIFY_CLIENT_SECRET"%string in
  let redirect_uri :=
    match env "SPOTIFY_REDIRECT_URI"%string with
    | Some v => v
    | None => "http://localhost:8888/callback"%string
    end in
  let missing_vars :=
    (if truthy client_id then [] else ["SPOTIFY_CLIENT_ID"%string])
    ++ (if truthy client_secret then [] else ["SPOTIFY_CLIENT_SECRET"%string]) in
  match missing_vars with
  | [] => ([], Returned (client_id, client_secret, redirect_uri))
  | _ :: _ =>
      (CliMissingHeader :: map CliMissingVar missing_vars
       ++ [CliPleaseSet; CliExportId; CliExportSecret; CliExportRedirect],
       SysExit 1)
  end.

(** How the process ends: an exit status, an exception that reached the
    top level, or a loop still running when the fuel ran out. *)
Inductive Status :=
| Exited (code : nat)
| Uncaught (e : exn)
| Running.

Record Process := mkProcess {
  status : Status;
  printed : list CliMsg;     (* lines of [get_credentials] and [main] *)
  service : World            (* the service and the lines of the workflow *)
}.

(** [main()] once [parser.parse_args()] has returned [args.playlist_url].
    The line with the redirect URI repeats a text of the environment, so
    it is printed only if standard output can encode it.  Building the
    refresher builds the OAuth manager and the client, which issue no
    remote call; the manager checks its arguments, and [accepts] tells
    whether it takes them: when it does not, the constructor raises
    [SpotifyOauthError].  No exception is caught in [main].  The world [w]
    is the service the client talks to. *)
Definition main (accepts : option string -> option string -> string -> bool)
    (fuel : nat) (env : Env) (playlist_url : string) (w : World) : Process :=
  match get_credentials env with
  | (lines, SysExit code) => mkProcess (Exited code) lines w
  | (lines, Returned (client_id, client_secret, redirect_uri)) =>
      if encodable redirect_uri then
        let lines' := lines ++ [CliUsingRedirect redirect_uri] in
        if accepts client_id client_secret redirect_uri then
          match refresh_playlist fuel playlist_url w with
          | (Val success, w') =>
              mkProcess (Exited (if success then 0 else 1)) lines' w'
          | (Exc e, w') => mkProcess (Uncaught e) lines' w'
          | (OutOfFuel, w') => mkProcess Running lines' w'
          end
        else mkProcess (Uncaught SpotifyOauthError) lines' w
      else mkProcess (Uncaught (UnicodeEncodeError redirect_uri)) lines w
  end.

(** The playlist identifier a call names, when it names one. *)
Definition target (c : Call) : option string :=
  match c with
  | Playlist p | PlaylistTracks p
  | RemoveAllOccurrences p _ | AddItems p _ => Some p
  | Next _ => None
  end.

Definition is_addition (c : Call) : bool :=
  match c with AddItems _ _ => true | _ => false end.

(** A sample environment with both credentials set. *)
Definition demo_env (key : string) : option string :=
  if String.eqb key "SPOTIFY_CLIENT_ID" then Some "id"%string
  else if String.eqb key "SPOTIFY_CLIENT_SECRET" then Some "secret"%string
  else None.

(** The same with the secret set to the empty string. *)
Definition demo_env_empty_secret (key : string) : option string :=
  if String.eqb key "SPOTIFY_CLIENT_ID" then Some "id"%string
  else if String.eqb key "SPOTIFY_CLIENT_SECRET" then Some EmptyString
  else if String.eqb key "SPOTIFY_REDIRECT_URI" then Some EmptyString
  else None.

(** A constructor of the client that takes every argument, and one that
    wants a redirect URI. *)
Definition accepts_all (client_id client_secret : option string)
    (redirect_uri : string) : bool := true.

Definition accepts_redirect (client_id client_secret : option string)
    (redirect_uri : string) : bool := nonempty redirect_uri.

(** A reference that matches no pattern and ends with a byte that did not
    decode. *)
Definition undecoded_url : string :=
  ("not-a-playlist" ++ String (ascii_of_nat 255) EmptyString)%string.

(** Every character of [s] is a letter or a digit. *)
Definition alnum_only (s : string) : Prop :=
  forall c, In c (list_ascii_of_string s) -> alnum c = true.

(** [g] is the longest run of letters and digits in front of [rest]: it
    is not empty, it holds letters and digits only, and [rest] does not go
    on with one. *)
Definition longest_alnum_run (g rest : string) : Prop :=
  g <> EmptyString /\ alnum_only g /\
  (rest = EmptyString \/
   exists c r, rest = String c r /\ alnum c = false).

(** [lit] is the pattern that decides for [url], and [pre] is where: [lit]
    is the first pattern of [pats] that occurs in [url], and [pre] is the
    text before its leftmost occurrence. *)
Definition first_match (pats : list string) (url lit pre : string) : Prop :=
  (exists before after,
     pats = before ++ lit :: after /\
     forall l, In l before -> ~ occurs l url) /\
  (forall pre2 c2 rest2,
     url = (pre2 ++ lit ++ String c2 rest2)%string -> alnum c2 = true ->
     String.length pre <= String.length pre2).

(** Fails the call number [k]. *)
Definition fail_at (k : nat) : nat -> bool := Nat.eqb k.

(** A computation keeps the property [Q] of the call history. *)
Definition keeps (Q : trace -> Prop) {A : Type} (m : M A) : Prop :=
  forall w, Q (w_log w) -> Q (w_log (snd (m w))).

(** Decides membership of a line in a list of printed lines. *)
Ltac out_cases :=
  simpl; intuition (try discriminate; try congruence).

(* ================================================================== *)
(** * Properties of the identifier resolver *)

Section Resolver.

Local Open Scope string_scope.

Lemma strip_prefix_app lit s : strip_prefix lit (lit ++ s) = Some s.
Proof.
  induction lit as [|a lit IH]; simpl; [reflexivity|].
  now rewrite Ascii.eqb_refl.
Qed.

Lemma strip_prefix_inv lit : forall s r,
  strip_prefix lit s = Some r -> s = lit ++ r.
Proof.
  induction lit as [|a lit IH]; simpl; intros s r H.
  - now inversion H.
  - destruct s as [|b s]; [discriminate|].
    destruct (Ascii.eqb a b) eqn:E; [|discriminate].
    apply Ascii.eqb_eq in E. subst b. now rewrite (IH _ _ H).
Qed.

Lemma take_while_split f s :
  exists rest, s = take_while f s ++ rest /\ take_while f rest = "".
Proof.
  induction s as [|c s [rest [IH1 IH2]]]; simpl.
  - exists "". now split.
  - destruct (f c) eqn:E.
    + exists rest. simpl. split; [now rewrite <- IH1 | assumption].
    + exists (String c s). simpl. now rewrite E.
Qed.

Lemma take_while_idem f s : take_while f (take_while f s) = take_while f s.
Proof.
  induction s as [|c s IH]; simpl; [reflexivity|].
  destruct (f c) eqn:E; simpl; [|reflexivity].
  now rewrite E, IH.
Qed.

Lemma all_alnum_take_while s : all_alnum (take_while alnum s) = true.
Proof. unfold all_alnum. rewrite take_while_idem. apply String.eqb_refl. Qed.

Lemma all_alnum_eq s : all_alnum s = true -> take_while alnum s = s.
Proof. unfold all_alnum. now rewrite String.eqb_eq. Qed.

Lemma all_alnum_cons c s :
  all_alnum (String c s) = true -> alnum c = true /\ all_alnum s = true.
Proof.
  intros H. apply all_alnum_eq in H. simpl in H.
  destruct (alnum c); [|discriminate].
  split; [reflexivity|]. inversion H as [H1]. unfold all_alnum.
  rewrite H1. rewrite H1. apply String.eqb_refl.
Qed.

Lemma take_while_app_all s t :
  all_alnum s = true ->
  take_while alnum (s ++ t) = s ++ take_while alnum t.
Proof.
  induction s as [|c s IH]; simpl; intros H; [reflexivity|].
  apply all_alnum_cons in H. destruct H as [Hc Hs].
  now rewrite Hc, IH.
Qed.

(** What a successful [match_here] says about the text. *)
Lemma match_here_inv lit s g :
  match_here lit s = Some g ->
  exists rest, s = lit ++ g ++ rest /\ maximal_run g rest.
Proof.
  unfold match_here. destruct (strip_prefix lit s) as [r|] eqn:E; [|discriminate].
  destruct (nonempty (take_while alnum r)) eqn:N; [|discriminate].
  intros H. inversion H; subst g. clear H.
  destruct (take_while_split alnum r) as [rest [H1 H2]].
  exists rest. split.
  - rewrite <- H1. now apply strip_prefix_inv.
  - repeat split; auto using all_alnum_take_while.
Qed.

Lemma match_here_occurrence lit c rest :
  alnum c = true ->
  exists g, match_here lit (lit ++ String c rest) = Some g.
Proof.
  intros Hc. unfold match_here. rewrite strip_prefix_app. simpl. rewrite Hc.
  simpl. eauto.
Qed.

Lemma re_search_inv lit : forall s g,
  re_search lit s = Some g ->
  exists pre rest, s = pre ++ lit ++ g ++ rest /\ maximal_run g rest.
Proof.
  induction s as [|c s IH]; intros g; simpl.
  - destruct (match_here lit "") as [g'|] eqn:E; [|discriminate].
    intros H; inversion H; subst g'.
    destruct (match_here_inv _ _ _ E) as [rest [H1 H2]].
    exists "", rest. now split.
  - destruct (match_here lit (String c s)) as [g'|] eqn:E.
    + intros H; inversion H; subst g'.
      destruct (match_here_inv _ _ _ E) as [rest [H1 H2]].
      exists "", rest. now split.
    + intros H. destruct (IH _ H) as [pre [rest [H1 H2]]].
      exists (String c pre), rest. simpl. now rewrite <- H1.
Qed.

Lemma re_search_occurrence lit : forall pre c rest,
  alnum c = true ->
  exists g, re_search lit (pre ++ lit ++ String c rest) = Some g.
Proof.
  induction pre as [|a pre IH]; intros c rest Hc.
  - simpl (_ ++ _).
    destruct (match_here_occurrence lit c rest Hc) as [g Hg].
    exists g. destruct (lit ++ String c rest); simpl; now rewrite Hg.
  - simpl. destruct (match_here lit _) as [g|]; [eauto|]. now apply IH.
Qed.

Lemma re_search_None_iff lit s :
  re_search lit s = None <-> ~ occurs lit s.
Proof.
  split.
  - intros H [pre [c [rest [E Hc]]]]. subst s.
    destruct (re_search_occurrence lit pre c rest Hc) as [g Hg]. congruence.
  - intros H. destruct (re_search lit s) as [g|] eqn:E; [|reflexivity].
    exfalso. apply H.
    destruct (re_search_inv _ _ _ E) as [pre [rest [E1 [N [A _]]]]].
    destruct g as [|c g]; [discriminate|].
    apply all_alnum_cons in A. destruct A as [Hc _].
    exists pre, c, (g ++ rest). split; [|assumption]. exact E1.
Qed.

Lemma extract_with_Val pats url : forall g,
  extract_with pats url = Val g ->
  exists lit, In lit pats /\ re_search lit url = Some g.
Proof.
  induction pats as [|p pats IH]; simpl; intros g H; [discriminate|].
  destruct (re_search p url) as [g'|] eqn:E.
  - inversion H; subst g'. eauto.
  - destruct (IH _ H) as [lit [H1 H2]]. eauto.
Qed.

Lemma extract_with_Exc pats url :
  (forall lit, In lit pats -> re_search lit url = None) ->
  extract_with pats url = Exc (ValueError url).
Proof.
  induction pats as [|p pats IH]; simpl; intros H; [reflexivity|].
  rewrite (H p) by now left. apply IH. intros lit Hl. apply H. now right.
Qed.

Lemma extract_with_total pats url :
  (exists g, extract_with pats url = Val g) \/
  extract_with pats url = Exc (ValueError url).
Proof.
  induction pats as [|p pats IH]; simpl; [now right|].
  destruct (re_search p url); eauto.
Qed.

Lemma extract_with_some pats url : forall lit g,
  In lit pats -> re_search lit url = Some g ->
  exists g', extract_with pats url = Val g'.
Proof.
  induction pats as [|p pats IH]; simpl; intros lit g [].
  - subst p. intros ->. eauto.
  - intros Hs. destruct (re_search p url); eauto.
Qed.

(** When every pattern either fails or finds [g], and one finds it, the
    loop returns [g] whatever the order of the patterns. *)
Lemma extract_with_agree pats url g :
  (forall lit, In lit pats ->
     re_search lit url = None \/ re_search lit url = Some g) ->
  (exists lit, In lit pats /\ re_search lit url = Some g) ->
  extract_with pats url = Val g.
Proof.
  induction pats as [|p pats IH]; simpl; intros Hall [lit [Hin Hs]]; [contradiction|].
  destruct (Hall p (or_introl eq_refl)) as [E|E]; rewrite E; [|reflexivity].
  apply IH.
  - intros l Hl. apply Hall. now right.
  - destruct Hin as [->|Hin]; [congruence|]. eauto.
Qed.

End Resolver.

Section ResolverOnIdentifiers.

Local Open Scope string_scope.

Variable pid : string.
Hypothesis pid_nonempty : nonempty pid = true.
Hypothesis pid_alnum : all_alnum pid = true.

Lemma strip_prefix_in_identifier lit : forall s,
  ends_nonalnum lit = true -> all_alnum s = true -> strip_prefix lit s = None.
Proof.
  induction lit as [|a lit IH]; intros s E A; [discriminate|].
  destruct s as [|b s]; [reflexivity|]. simpl.
  destruct (Ascii.eqb a b) eqn:Eab; [|reflexivity].
  apply Ascii.eqb_eq in Eab. subst b.
  apply all_alnum_cons in A. destruct A as [Ha As].
  apply IH; [|assumption].
  simpl in E. destruct lit; [|assumption]. now rewrite Ha in E.
Qed.

Lemma strip_prefix_before_identifier lit : forall t,
  ends_nonalnum lit = true ->
  strip_prefix lit (t ++ pid) =
  match strip_prefix lit t with Some r => Some (r ++ pid) | None => None end.
Proof.
  induction lit as [|a lit IH]; intros t E; [discriminate|].
  destruct t as [|b t].
  - simpl (_ ++ _). rewrite strip_prefix_in_identifier by assumption. reflexivity.
  - simpl. destruct (Ascii.eqb a b); [|reflexivity].
    destruct lit as [|a' lit]; [reflexivity|]. apply IH. exact E.
Qed.

Lemma take_while_before_identifier r :
  starts_nonalnum r = false -> nonempty (take_while alnum (r ++ pid)) = true.
Proof.
  destruct r as [|c r]; simpl.
  - intros _. now rewrite all_alnum_eq.
  - intros H. apply negb_false_iff in H. now rewrite H.
Qed.

Lemma re_search_in_identifier lit : forall s,
  ends_nonalnum lit = true -> all_alnum s = true -> re_search lit s = None.
Proof.
  induction s as [|c s IH]; intros E A; simpl; unfold match_here.
  - now rewrite strip_prefix_in_identifier.
  - rewrite strip_prefix_in_identifier by assumption.
    apply all_alnum_cons in A. now apply IH.
Qed.

Lemma re_search_locate lit : forall t,
  ends_nonalnum lit = true ->
  re_search lit (t ++ pid) =
  match locate lit t with
  | Some r => Some (take_while alnum (r ++ pid))
  | None => None
  end.
Proof.
  intros t E. induction t as [|c t IH].
  - simpl (_ ++ _). rewrite re_search_in_identifier by assumption.
    simpl. destruct lit; [discriminate|]. reflexivity.
  - simpl (String c t ++ pid). simpl re_search. unfold match_here.
    change (String c (t ++ pid)) with (String c t ++ pid).
    rewrite strip_prefix_before_identifier by assumption.
    simpl locate.
    destruct (strip_prefix lit (String c t)) as [r|]; [|exact IH].
    destruct (starts_nonalnum r) eqn:S.
    + destruct r as [|x r]; [discriminate|]. simpl in S |- *.
      apply negb_true_iff in S. rewrite S. simpl. exact IH.
    + now rewrite take_while_before_identifier.
Qed.

(** Each pattern, on each reference to [pid], finds [pid] or nothing. *)
Lemma re_search_references lit r :
  In lit patterns -> In r (references pid) ->
  re_search lit r = None \/ re_search lit r = Some pid.
Proof.
  intros Hl Hr. simpl in Hl. cbv beta iota delta [references In] in Hr.
  assert (T : take_while alnum ("" ++ pid) = pid) by (simpl; now apply all_alnum_eq).
  destruct Hl as [Hl|[Hl|[Hl|[]]]]; subst lit;
  (destruct Hr as [Hr|[Hr|[Hr|[]]]]; subst r);
  rewrite re_search_locate by reflexivity;
  match goal with
  | |- context [locate ?l ?t] =>
      let v := eval vm_compute in (locate l t) in
      change (locate l t) with v
  end; cbv beta iota; rewrite ?T; auto.
Qed.

Lemma re_search_references_found r :
  In r (references pid) ->
  exists lit, In lit patterns /\ re_search lit r = Some pid.
Proof.
  intros Hr. cbv beta iota delta [references In] in Hr.
  assert (T : take_while alnum ("" ++ pid) = pid) by (simpl; now apply all_alnum_eq).
  destruct Hr as [Hr|[Hr|[Hr|[]]]]; subst r;
  [ exists "spotify:playlist:" | exists "open.spotify.com/playlist/"
  | exists "spotify.com/playlist/" ];
  (split; [simpl; tauto|]);
  rewrite re_search_locate by reflexivity;
  match goal with
  | |- context [locate ?l ?t] =>
      let v := eval vm_compute in (locate l t) in
      change (locate l t) with v
  end; cbv beta iota; now rewrite T.
Qed.

End ResolverOnIdentifiers.

Section ResolverClaims.

Local Open Scope string_scope.

(** C7.  Every reference to a playlist identifier [pid] (a non-empty run of
    letters and digits), in the service URI form or in either web-link form,
    resolves to [pid]; and it does so whatever the order in which the three
    patterns are tried; in particular
    ["https://open.spotify.com/playlist/37i9dQZF1"] resolves to
    ["37i9dQZF1"]. *)
Theorem extract_playlist_id_grammar_invariant (pid r : string) (pats : list string) :
  nonempty pid = true -> all_alnum pid = true ->
  In r (references pid) ->
  Permutation pats patterns ->
  extract_playlist_id r = Val pid /\ extract_with pats r = Val pid.
Proof.
  intros N A Hr P.
  assert (G : forall ps, Permutation ps patterns -> extract_with ps r = Val pid).
  { intros ps Hp. apply extract_with_agree.
    - intros lit Hl. apply re_search_references; auto.
      eapply Permutation_in; eauto.
    - destruct (re_search_references_found pid N A r Hr) as [lit [H1 H2]].
      exists lit. split; [|assumption].
      eapply Permutation_in; [apply Permutation_sym|]; eauto. }
  split; [apply (G patterns (Permutation_refl _)) | now apply G].
Qed.

Lemma extract_playlist_id_grammar_invariant_witness :
  (nonempty "37i9dQZF1" = true /\ all_alnum "37i9dQZF1" = true) /\
  extract_playlist_id "https://open.spotify.com/playlist/37i9dQZF1"
    = Val "37i9dQZF1" /\
  extract_with (rev patterns) "https://open.spotify.com/playlist/37i9dQZF1"
    = Val "37i9dQZF1".
Proof.
  split; [split; reflexivity|].
  apply (extract_playlist_id_grammar_invariant "37i9dQZF1"
           "https://open.spotify.com/playlist/37i9dQZF1" (rev patterns)).
  - reflexivity.
  - reflexivity.
  - right; left; reflexivity.
  - apply Permutation_sym, Permutation_rev.
Defined.

(** C8.  A reference in which none of the three patterns occurs is not
    resolved: [extract_playlist_id] raises [ValueError] (the spec's
    UnresolvableReference) and returns no identifier at all. *)
Theorem extract_playlist_id_unrecognized (url : string) :
  (forall lit, In lit patterns -> ~ occurs lit url) ->
  extract_playlist_id url = Exc (ValueError url) /\
  (forall g, extract_playlist_id url <> Val g).
Proof.
  intros H.
  assert (E : extract_playlist_id url = Exc (ValueError url)).
  { apply extract_with_Exc. intros lit Hl. apply re_search_None_iff. auto. }
  split; [exact E|]. intros g. rewrite E. discriminate.
Qed.

Lemma extract_playlist_id_unrecognized_witness :
  (forall lit, In lit patterns -> ~ occurs lit "not-a-playlist") /\
  extract_playlist_id "not-a-playlist" = Exc (ValueError "not-a-playlist") /\
  (forall g, extract_playlist_id "not-a-playlist" <> Val g).
Proof.
  assert (H : forall lit, In lit patterns -> ~ occurs lit "not-a-playlist").
  { intros lit Hl. apply re_search_None_iff.
    destruct Hl as [<-|[<-|[<-|[]]]]; reflexivity. }
  split; [exact H|].
  exact (extract_playlist_id_unrecognized "not-a-playlist" H).
Defined.

Lemma alnum_only_of_all_alnum g : all_alnum g = true -> alnum_only g.
Proof.
  induction g as [|a g IH]; intros A c Hc; [destruct Hc|].
  apply all_alnum_cons in A. destruct A as [Ha Ag].
  destruct Hc as [<-|Hc]; [exact Ha | now apply IH].
Qed.

Lemma longest_of_maximal g rest : maximal_run g rest -> longest_alnum_run g rest.
Proof.
  intros [N [A T]]. split; [|split].
  - intros ->. discriminate.
  - now apply alnum_only_of_all_alnum.
  - destruct rest as [|c r]; [now left|]. right. exists c, r.
    split; [reflexivity|]. simpl in T. now destruct (alnum c).
Qed.

(** [re_search] finds the leftmost occurrence of the pattern. *)
Lemma re_search_leftmost lit : forall s g,
  re_search lit s = Some g ->
  exists pre rest,
    s = pre ++ lit ++ g ++ rest /\ maximal_run g rest /\
    (forall pre2 c2 rest2,
       s = pre2 ++ lit ++ String c2 rest2 -> alnum c2 = true ->
       String.length pre <= String.length pre2).
Proof.
  induction s as [|c s IH]; intros g; simpl.
  - destruct (match_here lit "") as [g'|] eqn:E; [|discriminate].
    intros H; inversion H; subst g'.
    destruct (match_here_inv _ _ _ E) as [rest [H1 H2]].
    exists "", rest. split; [exact H1|]. split; [exact H2|].
      intros. apply Nat.le_0_l.
  - destruct (match_here lit (String c s)) as [g'|] eqn:E.
    + intros H; inversion H; subst g'.
      destruct (match_here_inv _ _ _ E) as [rest [H1 H2]].
      exists "", rest. split; [exact H1|]. split; [exact H2|].
      intros. apply Nat.le_0_l.
    + intros H. destruct (IH _ H) as [pre [rest [H1 [H2 H3]]]].
      exists (String c pre), rest. split; [simpl; now rewrite <- H1|].
      split; [exact H2|].
      intros pre2 c2 rest2 D Hc. destruct pre2 as [|a pre2].
      * exfalso. simpl in D. rewrite D in E.
        destruct (match_here_occurrence lit c2 rest2 Hc) as [g0 G].
        congruence.
      * simpl in D. inversion D; subst. simpl.
        apply le_n_S. eapply H3; eauto.
Qed.

(** The loop returns the match of the first pattern that has one. *)
Lemma extract_with_first pats url : forall g,
  extract_with pats url = Val g ->
  exists lit before after,
    pats = (before ++ lit :: after)%list /\
    (forall l, In l before -> ~ occurs l url) /\
    re_search lit url = Some g.
Proof.
  induction pats as [|p pats IH]; simpl; intros g H; [discriminate|].
  destruct (re_search p url) as [g'|] eqn:E.
  - inversion H; subst g'. exists p, [], pats.
    split; [reflexivity|]. split; [intros l []|exact E].
  - destruct (IH _ H) as [lit [before [after [-> [N S]]]]].
    exists lit, (p :: before), after. split; [reflexivity|].
    split; [|exact S].
    intros l [<-|Hl]; [now apply re_search_None_iff | now apply N].
Qed.

(** C10.  A reference that contains one of the three patterns anywhere (the
    literal text followed by at least one letter or digit) is resolved,
    whatever precedes the pattern and whatever follows the identifier.
    The pattern that decides is the first of the three that occurs in the
    reference, at its leftmost occurrence; the identifier returned stands
    right after the literal text of that occurrence and is the longest
    run of letters and digits there: it is not empty, it holds letters and
    digits only, and what follows it does not start with one. *)
Theorem extract_playlist_id_substring (lit pre rest : string) (c : ascii) :
  In lit patterns -> alnum c = true ->
  exists g lit' pre' rest',
    extract_playlist_id (pre ++ lit ++ String c rest) = Val g /\
    In lit' patterns /\
    first_match patterns (pre ++ lit ++ String c rest) lit' pre' /\
    pre ++ lit ++ String c rest = pre' ++ lit' ++ g ++ rest' /\
    longest_alnum_run g rest'.
Proof.
  intros Hl Hc.
  destruct (re_search_occurrence lit pre c rest Hc) as [g0 Hg0].
  destruct (extract_with_some patterns _ lit g0 Hl Hg0) as [g Hg].
  destruct (extract_with_first _ _ _ Hg) as [lit' [before [after [P [N Hs]]]]].
  destruct (re_search_leftmost _ _ _ Hs) as [pre' [rest' [E [Mx L]]]].
  exists g, lit', pre', rest'.
  split; [exact Hg|]. split.
  { rewrite P. apply in_or_app. right. now left. }
  split; [|split; [exact E | now apply longest_of_maximal]].
  split; [|exact L]. exists before, after. now split.
Qed.

Lemma extract_playlist_id_substring_witness :
  (In "open.spotify.com/playlist/" patterns /\ alnum "3" = true) /\
  extract_playlist_id
    ("see https://" ++ "open.spotify.com/playlist/"
     ++ String "3" "7i9dQZF1?si=abc") = Val "37i9dQZF1" /\
  exists lit' pre' rest',
    In lit' patterns /\
    first_match patterns
      ("see https://" ++ "open.spotify.com/playlist/"
       ++ String "3" "7i9dQZF1?si=abc") lit' pre' /\
    "see https://" ++ "open.spotify.com/playlist/"
      ++ String "3" "7i9dQZF1?si=abc" = pre' ++ lit' ++ "37i9dQZF1" ++ rest' /\
    longest_alnum_run "37i9dQZF1" rest'.
Proof.
  assert (Hl : In "open.spotify.com/playlist/" patterns)
    by (right; left; reflexivity).
  split; [split; [exact Hl | reflexivity]|].
  destruct (extract_playlist_id_substring "open.spotify.com/playlist/"
              "see https://" "7i9dQZF1?si=abc" "3" Hl eq_refl)
    as [g [lit' [pre' [rest' [E [I [F [D M]]]]]]]].
  assert (G : g = "37i9dQZF1").
  { assert (E' : extract_playlist_id
                   ("see https://" ++ "open.spotify.com/playlist/"
                    ++ String "3" "7i9dQZF1?si=abc") = Val "37i9dQZF1")
      by reflexivity.
    rewrite E' in E. now inversion E. }
  subst g. split; [exact E|]. exists lit', pre', rest'. auto.
Defined.

(** The query string of a shared link is left out of the identifier. *)
Example extract_playlist_id_query :
  extract_playlist_id "https://open.spotify.com/playlist/37i9dQZF1?si=abc"
  = Val "37i9dQZF1".
Proof. reflexivity. Qed.

End ResolverClaims.

(* ================================================================== *)
(** * Worlds, traces and remote calls *)

Section Worlds.

Lemma replay_app tr1 tr2 us :
  replay (tr1 ++ tr2) us = replay tr2 (replay tr1 us).
Proof. unfold replay. apply fold_left_app. Qed.

Lemma replay_fetch_only tr : forall us, fetch_only tr -> replay tr us = us.
Proof.
  induction tr as [|[c ok] tr IH]; intros us H; [reflexivity|].
  inversion H as [|e l Hc Htr]; subst. simpl in Hc.
  change (replay ((c, ok) :: tr) us)
    with (replay tr (if ok then effect c us else us)).
  rewrite IH by assumption.
  destruct ok; [|reflexivity]. destruct c; try reflexivity; discriminate.
Qed.

Lemma advance_nil w : advance [] [] w = w.
Proof. destruct w. unfold advance. simpl. now rewrite !app_nil_r. Qed.

Lemma advance_advance tr1 m1 tr2 m2 w :
  advance tr2 m2 (advance tr1 m1 w) = advance (tr1 ++ tr2) (m1 ++ m2) w.
Proof.
  unfold advance. simpl. now rewrite replay_app, !app_assoc.
Qed.

Lemma emit_advance m tr msgs w :
  emit m (advance tr msgs w) = advance tr (msgs ++ [m]) w.
Proof. unfold emit, advance. simpl. now rewrite app_assoc. Qed.

Lemma emit_start m w : emit m w = advance [] [m] w.
Proof. rewrite <- (advance_nil w) at 1. apply emit_advance. Qed.

Lemma invoke_run {A} (c : Call) (known : bool) (reply : World -> A) w :
  invoke c known reply w =
  if w_faults w (List.length (w_log w)) || negb known
  then (Exc (SpotifyException c), advance [(c, false)] [] w)
  else (Val (reply w), advance [(c, true)] [] w).
Proof.
  unfold invoke, advance, record_call, set_uris. simpl.
  rewrite app_nil_r. reflexivity.
Qed.

Lemma fetch_only_app tr1 tr2 :
  fetch_only tr1 -> fetch_only tr2 -> fetch_only (tr1 ++ tr2).
Proof. intros H1 H2. apply Forall_app. now split. Qed.

Lemma all_ok_app tr1 tr2 : all_ok tr1 -> all_ok tr2 -> all_ok (tr1 ++ tr2).
Proof. intros H1 H2. apply Forall_app. now split. Qed.

Lemma all_ok_succeeded cs : all_ok (succeeded cs).
Proof. unfold all_ok, succeeded. rewrite Forall_map. now apply Forall_forall. Qed.

Lemma succeeded_app cs1 cs2 :
  succeeded (cs1 ++ cs2) = succeeded cs1 ++ succeeded cs2.
Proof. apply map_app. Qed.

End Worlds.

(* ================================================================== *)
(** * The track enumerator *)

Section Enumerator.

Lemma page_tracks_app its1 its2 :
  page_tracks (its1 ++ its2) = page_tracks its1 ++ page_tracks its2.
Proof.
  induction its1 as [|it its1 IH]; simpl; [reflexivity|].
  destruct (keep it); simpl; now rewrite IH.
Qed.

Lemma tracks_of_app catalog us1 us2 :
  tracks_of catalog (us1 ++ us2) =
  tracks_of catalog us1 ++ tracks_of catalog us2.
Proof. unfold tracks_of. now rewrite map_app, page_tracks_app. Qed.

(** An entry yields a track exactly when it is eligible, and the track
    carries the URI of the entry. *)
Lemma keep_item_of catalog u :
  match keep (item_of catalog u) with
  | Some t => eligible catalog u = true /\ track_uri t = u
  | None => eligible catalog u = false
  end.
Proof.
  unfold keep, item_of, eligible, truthy.
  destruct (catalog u) as [m|]; [|reflexivity]. simpl.
  destruct (m_id m) as [i|]; [|reflexivity].
  destruct (nonempty i); simpl; auto.
Qed.

Lemma track_uris_of catalog us :
  map track_uri (tracks_of catalog us) = filter (eligible catalog) us.
Proof.
  unfold tracks_of. induction us as [|u us IH]; simpl; [reflexivity|].
  pose proof (keep_item_of catalog u) as K.
  destruct (keep (item_of catalog u)) as [t|].
  - destruct K as [E U]. rewrite E. simpl. now rewrite U, IH.
  - now rewrite K.
Qed.

Lemma tracks_of_nil catalog us :
  tracks_of catalog us = [] <-> filter (eligible catalog) us = [].
Proof.
  rewrite <- track_uris_of. destruct (tracks_of catalog us); simpl; split;
    intros; auto; discriminate.
Qed.

(** The entries from [off] on: one page, then the rest. *)
Lemma skipn_page {A} (l : list A) off limit :
  skipn off l = firstn limit (skipn off l) ++ skipn (off + limit) l.
Proof.
  rewrite Nat.add_comm, <- skipn_skipn. symmetry. apply firstn_skipn.
Qed.

Lemma last_page {A} (l : list A) off limit :
  List.length l <= off + limit -> firstn limit (skipn off l) = skipn off l.
Proof.
  intros H. apply firstn_all2. rewrite length_skipn. lia.
Qed.

(** One turn of the page loop. *)
Lemma pages_loop_step fuel off acc w :
  pages_loop (S fuel) (page_at w off) acc w =
  let acc1 :=
    acc ++ tracks_of (w_catalog w) (firstn (w_limit w) (skipn off (w_uris w))) in
  if off + w_limit w <? List.length (w_uris w)
  then if w_faults w (List.length (w_log w))
       then (Exc (SpotifyException (Next (off + w_limit w))),
             advance [(Next (off + w_limit w), false)] [] w)
       else pages_loop fuel (page_at w (off + w_limit w)) acc1
              (advance [(Next (off + w_limit w), true)] [] w)
  else (Val acc1, w).
Proof.
  cbn [pages_loop]. unfold page_at, tracks_of. cbn [next items].
  destruct (off + w_limit w <? List.length (w_uris w)); [|reflexivity].
  unfold bind, sp_next, page_at. rewrite invoke_run, orb_false_r.
  destruct (w_faults w (List.length (w_log w))); reflexivity.
Qed.

(** What a call to the page loop does, however it ends: it only fetches,
    a failed fetch is the last call, and a returned list is the list of
    the tracks of every eligible entry from the current page on. *)
Lemma pages_loop_run fuel : forall off acc w,
  exists tr,
    snd (pages_loop fuel (page_at w off) acc w) = advance tr [] w /\
    fetch_only tr /\
    match fst (pages_loop fuel (page_at w off) acc w) with
    | Val ts =>
        all_ok tr /\
        ts = acc ++ tracks_of (w_catalog w) (skipn off (w_uris w))
    | Exc e =>
        exists tr0 c, tr = tr0 ++ [(c, false)] /\ all_ok tr0 /\
                      is_mutation c = false /\ e = SpotifyException c
    | OutOfFuel =>
        all_ok tr /\
        ~ (0 < w_limit w /\ List.length (w_uris w) - off < fuel)
    end.
Proof.
  induction fuel as [|fuel IH]; intros off acc w.
  - exists []. simpl. rewrite advance_nil.
    repeat split; try constructor. lia.
  - rewrite pages_loop_step. cbv zeta.
    destruct (off + w_limit w <? List.length (w_uris w)) eqn:E.
    + destruct (w_faults w (List.length (w_log w))).
      * exists [(Next (off + w_limit w), false)]. cbn [fst snd].
        split; [reflexivity|]. split; [repeat constructor|].
        exists [], (Next (off + w_limit w)).
        repeat split. constructor.
      * set (w1 := advance [(Next (off + w_limit w), true)] [] w).
        set (acc1 := acc ++ tracks_of _ _).
        change (page_at w (off + w_limit w))
          with (page_at w1 (off + w_limit w)).
        destruct (IH (off + w_limit w) acc1 w1) as [tr [Hw [Hf Hr]]].
        exists ((Next (off + w_limit w), true) :: tr).
        split; [|split].
        -- rewrite Hw. unfold w1. now rewrite advance_advance.
        -- constructor; [reflexivity | assumption].
        -- destruct (fst (pages_loop fuel _ acc1 w1)) as [ts|e|].
           ++ destruct Hr as [Hok ->]. split; [now constructor|].
              unfold acc1. rewrite <- app_assoc. f_equal.
              change (w_catalog w1) with (w_catalog w).
              change (w_uris w1) with (w_uris w).
              rewrite (skipn_page (w_uris w) off (w_limit w)) at 2.
              now rewrite tracks_of_app.
           ++ destruct Hr as [tr0 [c [-> [Hok [Hc ->]]]]].
              exists ((Next (off + w_limit w), true) :: tr0), c.
              repeat split; auto. now constructor.
           ++ destruct Hr as [Hok Hn]. split; [now constructor|].
              change (w_limit w1) with (w_limit w) in Hn.
              change (w_uris w1) with (w_uris w) in Hn.
              apply Nat.ltb_lt in E. lia.
    + exists []. cbn [fst snd]. rewrite advance_nil.
      split; [reflexivity|]. split; [constructor|].
      split; [constructor|]. f_equal.
      apply Nat.ltb_ge in E. now rewrite last_page.
Qed.

(** The same for [get_playlist_tracks]. *)
Lemma get_playlist_tracks_run fuel pid w :
  exists tr,
    snd (get_playlist_tracks fuel pid w) = advance tr [] w /\
    fetch_only tr /\
    match fst (get_playlist_tracks fuel pid w) with
    | Val ts => all_ok tr /\ ts = tracks_of (w_catalog w) (w_uris w)
    | Exc e =>
        exists tr0 c, tr = tr0 ++ [(c, false)] /\ all_ok tr0 /\
                      is_mutation c = false /\ e = SpotifyException c
    | OutOfFuel =>
        all_ok tr /\ ~ (0 < w_limit w /\ List.length (w_uris w) < fuel)
    end.
Proof.
  unfold get_playlist_tracks, bind, sp_playlist_tracks. rewrite invoke_run.
  destruct (w_faults w (List.length (w_log w)) || negb (hosted pid w)).
  - exists [(PlaylistTracks pid, false)]. cbn [fst snd].
    split; [reflexivity|]. split; [repeat constructor|].
    exists [], (PlaylistTracks pid). repeat split; constructor.
  - set (w1 := advance [(PlaylistTracks pid, true)] [] w).
    change (page_at w 0) with (page_at w1 0).
    destruct (pages_loop_run fuel 0 [] w1) as [tr [Hw [Hf Hr]]].
    exists ((PlaylistTracks pid, true) :: tr).
    split; [|split].
    + rewrite Hw. unfold w1. now rewrite advance_advance.
    + constructor; [reflexivity | assumption].
    + destruct (fst (pages_loop fuel _ [] w1)) as [ts|e|].
      * destruct Hr as [Hok ->]. split; [now constructor | reflexivity].
      * destruct Hr as [tr0 [c [-> [Hok [Hc ->]]]]].
        exists ((PlaylistTracks pid, true) :: tr0), c.
        repeat split; auto. now constructor.
      * destruct Hr as [Hok Hn]. split; [now constructor|].
        change (w_limit w1) with (w_limit w) in Hn.
        change (w_uris w1) with (w_uris w) in Hn.
        now rewrite Nat.sub_0_r in Hn.
Qed.

End Enumerator.

(* ================================================================== *)
(** * Runs without remote failure *)

Section Totality.

Lemma range_from_fuel stop step : 0 < step -> forall n m i,
  stop - i <= n -> stop - i <= m ->
  range_from n i stop step = range_from m i stop step.
Proof.
  intros Hs. induction n as [|n IH]; intros m i Hn Hm.
  - destruct m; [reflexivity|]. simpl.
    destruct (i <? stop) eqn:E; [|reflexivity].
    apply Nat.ltb_lt in E. lia.
  - destruct m; simpl; destruct (i <? stop) eqn:E; try reflexivity.
    + apply Nat.ltb_lt in E. lia.
    + f_equal. apply Nat.ltb_lt in E. apply IH; lia.
Qed.

Lemma range_from_cons stop step n i :
  0 < step -> i < stop -> stop - i <= n ->
  range_from n i stop step = i :: range_from n (i + step) stop step.
Proof.
  intros Hs Hi Hn. destruct n as [|n]; [lia|].
  apply Nat.ltb_lt in Hi as E.
  assert (U : range_from (S n) i stop step
              = i :: range_from n (i + step) stop step)
    by (simpl; now rewrite E).
  rewrite U. f_equal. apply range_from_fuel; lia.
Qed.

Lemma range_from_done stop step n i :
  stop <= i -> range_from n i stop step = [].
Proof.
  intros Hi. destruct n; [reflexivity|]. simpl.
  apply Nat.ltb_ge in Hi. now rewrite Hi.
Qed.

Lemma pages_loop_total fuel : forall off acc w,
  0 < w_limit w -> no_faults w ->
  List.length (w_uris w) - off < fuel ->
  pages_loop fuel (page_at w off) acc w =
  (Val (acc ++ tracks_of (w_catalog w) (skipn off (w_uris w))),
   advance (succeeded (map Next
              (range_from (List.length (w_uris w)) (off + w_limit w)
                          (List.length (w_uris w)) (w_limit w)))) [] w).
Proof.
  induction fuel as [|fuel IH]; intros off acc w L F Hf; [lia|].
  rewrite pages_loop_step. cbv zeta.
  destruct (off + w_limit w <? List.length (w_uris w)) eqn:E.
  - rewrite F. apply Nat.ltb_lt in E.
    set (w1 := advance [(Next (off + w_limit w), true)] [] w).
    change (page_at w (off + w_limit w)) with (page_at w1 (off + w_limit w)).
    rewrite IH; [| exact L | exact F | change (w_uris w1) with (w_uris w); lia].
    change (w_catalog w1) with (w_catalog w).
    change (w_uris w1) with (w_uris w).
    change (w_limit w1) with (w_limit w).
    f_equal.
    + rewrite <- app_assoc, <- tracks_of_app.
      now rewrite <- skipn_page.
    + unfold w1. rewrite advance_advance.
      rewrite (range_from_cons _ _ _ (off + w_limit w)) by lia.
      reflexivity.
  - apply Nat.ltb_ge in E. rewrite range_from_done by exact E.
    rewrite last_page by exact E. now rewrite advance_nil.
Qed.

(** With a positive page size and no failing call, the enumeration returns
    the tracks of all eligible entries, in playlist order, after fetching
    the first page and the pages at [range(limit, len, limit)]. *)
Lemma get_playlist_tracks_total fuel w :
  0 < w_limit w -> no_faults w -> List.length (w_uris w) < fuel ->
  get_playlist_tracks fuel (w_id w) w =
  (Val (tracks_of (w_catalog w) (w_uris w)),
   advance (succeeded (fetch_calls w)) [] w).
Proof.
  intros L F Hf. unfold get_playlist_tracks, bind, sp_playlist_tracks.
  rewrite invoke_run. unfold hosted. rewrite F, String.eqb_refl. cbn [orb negb].
  set (w1 := advance [(PlaylistTracks (w_id w), true)] [] w).
  change (page_at w 0) with (page_at w1 0).
  rewrite pages_loop_total;
    [| exact L | exact F | change (w_uris w1) with (w_uris w); lia].
  unfold w1. rewrite advance_advance. reflexivity.
Qed.

End Totality.

(* ================================================================== *)
(** * The two mutation loops *)

Section Loops.

Lemma for_each_map {A B} (f : A -> B) (body : B -> M unit) : forall xs w,
  for_each xs (fun x => body (f x)) w = for_each (map f xs) body w.
Proof.
  induction xs as [|x xs IH]; intros w; [reflexivity|].
  cbn [for_each map]. unfold bind.
  destruct (body (f x) w) as [[[]|e|] w1]; auto.
Qed.

Variable pid : string.
Variable mk : list string -> Call.
Variable call : list string -> M unit.
Hypothesis call_invoke : forall b w,
  call b w = invoke (mk b) (hosted pid w) (fun _ => tt) w.

(** A mutation loop either goes through all its batches, or stops at the
    first call that fails. *)
Lemma mutation_loop_run : forall bs w,
  (fst (for_each bs call w) = Val tt /\
   snd (for_each bs call w) = advance (succeeded (map mk bs)) [] w) \/
  (exists pre b post,
     bs = pre ++ b :: post /\
     fst (for_each bs call w) = Exc (SpotifyException (mk b)) /\
     snd (for_each bs call w)
       = advance (succeeded (map mk pre) ++ [(mk b, false)]) [] w).
Proof.
  induction bs as [|b bs IH]; intros w.
  - left. simpl. now rewrite advance_nil.
  - cbn [for_each]. unfold bind. rewrite call_invoke, invoke_run.
    destruct (w_faults w (List.length (w_log w)) || negb (hosted pid w)).
    + right. exists [], b, bs. repeat split.
    + set (w1 := advance [(mk b, true)] [] w).
      destruct (IH w1) as [[Hr Hw]|[pre [b' [post [-> [Hr Hw]]]]]].
      * left. split; [exact Hr|]. rewrite Hw. unfold w1.
        now rewrite advance_advance.
      * right. exists (b :: pre), b', post. split; [reflexivity|].
        split; [exact Hr|]. rewrite Hw. unfold w1.
        now rewrite advance_advance.
Qed.

Lemma mutation_loop_total : forall bs w,
  no_faults w -> hosted pid w = true ->
  for_each bs call w = (Val tt, advance (succeeded (map mk bs)) [] w).
Proof.
  induction bs as [|b bs IH]; intros w F H.
  - simpl. now rewrite advance_nil.
  - cbn [for_each]. unfold bind. rewrite call_invoke, invoke_run.
    rewrite F, H. cbn [orb negb].
    rewrite IH by assumption. now rewrite advance_advance.
Qed.

End Loops.

(* ================================================================== *)
(** * Every run of [refresh_playlist] *)

Section Runs.

Lemma try_bind {A B} (m : M A) (k : A -> M B) (h : exn -> M B) w :
  try_except (x <- m ;; k x) h w =
  match m w with
  | (Val a, w') => try_except (k a) h w'
  | (Exc e, w') => h e w'
  | (OutOfFuel, w') => (OutOfFuel, w')
  end.
Proof. unfold try_except, bind. destruct (m w) as [[a|e|] w']; reflexivity. Qed.

Lemma try_print {B} (m : Msg) (k : M B) (h : exn -> M B) w :
  echo m = None ->
  try_except (print m ;;; k) h w = try_except k h (emit m w).
Proof. intros E. rewrite try_bind. unfold print. now rewrite E. Qed.

Lemma handler_value_error url w :
  (print (MsgError (ValueError url)) ;;; ret false) w =
  if encodable url
  then (Val false, emit (MsgError (ValueError url)) w)
  else (Exc (UnicodeEncodeError url), w).
Proof.
  unfold bind, print, ret. cbn [echo]. now destruct (encodable url).
Qed.

Lemma extract_playlist_id_Exc url e :
  extract_playlist_id url = Exc e -> e = ValueError url.
Proof.
  intros H. unfold extract_playlist_id in *.
  destruct (extract_with_total patterns url) as [[g G]|G]; congruence.
Qed.

Lemma try_invoke {A B} c (known : World -> bool) (reply : World -> A)
    (k : A -> M B) (h : exn -> M B) w :
  try_except (x <- (fun w => invoke c (known w) reply w) ;; k x) h w =
  if w_faults w (List.length (w_log w)) || negb (known w)
  then h (SpotifyException c) (advance [(c, false)] [] w)
  else try_except (k (reply w)) h (advance [(c, true)] [] w).
Proof.
  rewrite try_bind, invoke_run.
  destruct (w_faults w (List.length (w_log w)) || negb (known w)); reflexivity.
Qed.

Lemma refresh_run_eq fuel w url r tr tr' msgs msgs' :
  refresh_run fuel w url r tr msgs -> tr = tr' -> msgs = msgs' ->
  refresh_run fuel w url r tr' msgs'.
Proof. now intros H <- <-. Qed.

Lemma length_eligible_tracks w :
  List.length (tracks_of (w_catalog w) (w_uris w))
  = List.length (eligible_uris w).
Proof. unfold eligible_uris. now rewrite <- track_uris_of, length_map. Qed.

End Runs.

Section Master.

(** Every run of [refresh_playlist] goes one of the ways listed by
    [refresh_run], and leaves the world advanced by the calls issued and
    the lines printed. *)
Lemma refresh_playlist_runs fuel url w :
  exists tr msgs,
    refresh_run fuel w url (fst (refresh_playlist fuel url w)) tr msgs /\
    snd (refresh_playlist fuel url w) = advance tr msgs w.
Proof.
  unfold refresh_playlist, refresh_body.
  rewrite try_bind.
  destruct (extract_playlist_id url) as [pid|e|] eqn:X.
  2:{ pose proof (extract_playlist_id_Exc _ _ X) as ->.
      rewrite handler_value_error. destruct (encodable url) eqn:P.
      - exists [], [MsgError (ValueError url)].
        split; [now constructor | apply emit_start].
      - exists [], []. cbn [fst snd].
        split; [now apply (run_unprintable _ _ _ (ValueError url))|].
        symmetry. apply advance_nil. }
  2:{ exfalso. unfold extract_playlist_id in X.
      destruct (extract_with_total patterns url) as [[g H]|H]; congruence. }
  rewrite try_print by reflexivity. unfold sp_playlist. rewrite try_invoke.
  rewrite emit_start.
  set (w0 := advance [] [MsgWorkingWith pid] w).
  destruct (w_faults w0 (List.length (w_log w0)) || negb (hosted pid w0)).
  { exists [(Playlist pid, false)],
      [MsgWorkingWith pid; MsgError (SpotifyException (Playlist pid))].
    split; [now constructor|].
    cbn [fst snd bind print ret echo]. unfold w0.
    now rewrite emit_advance, advance_advance. }
  cbn [fst snd]. rewrite try_print by reflexivity.
  change (w_name w0) with (w_name w). change (w_owner w0) with (w_owner w).
  unfold w0. rewrite advance_advance, emit_advance. cbn [app].
  set (w1 := advance _ _ w).
  rewrite try_bind.
  destruct (get_playlist_tracks_run fuel pid w1) as [ftr [Hw [Hf Hr]]].
  destruct (get_playlist_tracks fuel pid w1) as [r w2]. cbn [fst snd] in Hw, Hr.
  subst w2. unfold w1. rewrite advance_advance. cbn [app].
  change (w_catalog w1) with (w_catalog w) in Hr.
  change (w_uris w1) with (w_uris w) in Hr.
  change (w_limit w1) with (w_limit w) in Hr.
  clear w1 w0.
  destruct r as [ts|e|].
  2:{ destruct Hr as [tr0 [c [-> [Hok [Hc ->]]]]].
      exists ((Playlist pid, true) :: tr0 ++ [(c, false)]),
        [MsgWorkingWith pid; MsgPlaylist (w_name w) (w_owner w);
         MsgError (SpotifyException c)].
      apply Forall_app in Hf. destruct Hf as [Hf _].
      split; [now constructor|].
      cbn [fst snd bind print ret echo]. now rewrite emit_advance. }
  2:{ exists ((Playlist pid, true) :: ftr),
        [MsgWorkingWith pid; MsgPlaylist (w_name w) (w_owner w)].
      destruct Hr as [Hok Hn].
      split; [now constructor | reflexivity]. }
  destruct Hr as [Hok ->].
  remember (tracks_of (w_catalog w) (w_uris w)) as a eqn:T.
  destruct a as [|t a].
  { exists ((Playlist pid, true) :: ftr),
      [MsgWorkingWith pid; MsgPlaylist (w_name w) (w_owner w); MsgNoTracks].
    split.
    - constructor; auto. apply tracks_of_nil. now symmetry.
    - unfold try_except. cbn [fst snd bind print ret echo].
      now rewrite emit_advance. }
  assert (U : map track_uri (t :: a) = eligible_uris w)
    by (rewrite T; apply track_uris_of).
  assert (N : eligible_uris w <> []) by (rewrite <- U; discriminate).
  rewrite U. replace (List.length (t :: a)) with (List.length (eligible_uris w))
    by (now rewrite <- U, length_map).
  clear T U t a.
  rewrite !try_print by reflexivity. rewrite !emit_advance. cbn [app].
  rewrite try_bind.
  rewrite (for_each_map (fun i => slice (eligible_uris w) i (i + 100))
             (sp_playlist_remove_all_occurrences_of_items pid)).
  fold (batches (eligible_uris w)).
  set (w1 := advance _ _ w).
  destruct (mutation_loop_run pid (RemoveAllOccurrences pid)
              (sp_playlist_remove_all_occurrences_of_items pid)
              (fun b w => eq_refl) (batches (eligible_uris w)) w1)
    as [[Hr Hw]|[pre [b [post [B [Hr Hw]]]]]];
    destruct (for_each (batches (eligible_uris w)) _ w1) as [r w2];
    cbn [fst snd] in Hr, Hw; subst r w2; unfold w1;
    rewrite advance_advance; cbn [app]; clear w1.
  2:{ eexists. eexists. split.
      - eapply refresh_run_eq;
          [ eapply (run_remove_failed fuel w url pid ftr pre b post); eauto
          | | ]; reflexivity.
      - cbn [fst snd bind print ret echo]. rewrite emit_advance.
        cbn [app]. now rewrite <- ?app_assoc. }
  rewrite try_print by reflexivity. rewrite emit_advance. cbn [app].
  rewrite try_bind.
  rewrite (for_each_map (fun i => slice (eligible_uris w) i (i + 100))
             (sp_playlist_add_items pid)).
  fold (batches (eligible_uris w)).
  fold (removal_calls pid (eligible_uris w)).
  set (w1 := advance _ _ w).
  destruct (mutation_loop_run pid (AddItems pid)
              (sp_playlist_add_items pid)
              (fun b w => eq_refl) (batches (eligible_uris w)) w1)
    as [[Hr Hw]|[pre [b [post [B [Hr Hw]]]]]];
    destruct (for_each (batches (eligible_uris w)) _ w1) as [r w2];
    cbn [fst snd] in Hr, Hw; subst r w2; unfold w1;
    rewrite advance_advance; cbn [app]; clear w1.
  - eexists. eexists. split.
    + eapply refresh_run_eq;
        [ eapply (run_done fuel w url pid ftr); eauto | | ]; reflexivity.
    + unfold try_except. cbn [fst snd bind print ret echo]. rewrite emit_advance.
      cbn [app]. now rewrite <- ?app_assoc.
  - eexists. eexists. split.
    + eapply refresh_run_eq;
        [ eapply (run_add_failed fuel w url pid ftr pre b post); eauto
        | | ]; reflexivity.
    + cbn [fst snd bind print ret echo]. rewrite emit_advance.
      cbn [app]. now rewrite <- ?app_assoc.
Qed.


End Master.

(* ================================================================== *)
(** * Batches *)

Section Batches.

Variable A : Type.
Variable l : list A.
Variable step : nat.
Hypothesis step_pos : 0 < step.

Lemma slice_length i : List.length (slice l i (i + step)) <= step.
Proof.
  unfold slice. rewrite length_firstn. lia.
Qed.

Lemma concat_slices : forall n i,
  List.length l - i <= n ->
  List.concat (map (fun j => slice l j (j + step))
              (range_from n i (List.length l) step)) = skipn i l.
Proof.
  induction n as [|n IH]; intros i H.
  - simpl. symmetry. apply skipn_all2. lia.
  - simpl. destruct (i <? List.length l) eqn:E.
    + apply Nat.ltb_lt in E. cbn [map List.concat]. rewrite IH by lia.
      unfold slice. replace (i + step - i) with step by lia.
      symmetry. apply skipn_page.
    + apply Nat.ltb_ge in E. simpl. symmetry. now apply skipn_all2.
Qed.

Lemma ceil_step x : 0 < x -> (x + step - 1) / step = S ((x - step + step - 1) / step).
Proof.
  intros Hx. destruct (Nat.le_gt_cases x step) as [H|H].
  - replace (x - step) with 0 by lia.
    rewrite (Nat.div_small (0 + step - 1)) by lia.
    symmetry. apply (Nat.div_unique _ _ 1 (x - 1)); lia.
  - replace (x + step - 1) with ((x - step + step - 1) + 1 * step) by lia.
    rewrite Nat.div_add by lia. lia.
Qed.

Lemma length_range_from : forall n i stop,
  stop - i <= n ->
  List.length (range_from n i stop step) = (stop - i + step - 1) / step.
Proof.
  induction n as [|n IH]; intros i stop H.
  - simpl. replace (stop - i) with 0 by lia.
    symmetry. apply Nat.div_small. lia.
  - simpl. destruct (i <? stop) eqn:E.
    + apply Nat.ltb_lt in E. cbn [List.length]. rewrite IH by lia.
      rewrite (ceil_step (stop - i)) by lia.
      do 3 f_equal. lia.
    + apply Nat.ltb_ge in E. replace (stop - i) with 0 by lia.
      symmetry. apply Nat.div_small. lia.
Qed.

End Batches.

Section BatchesOfHundred.

Variable uris : list string.

Lemma batches_concat : List.concat (batches uris) = uris.
Proof.
  unfold batches, range.
  rewrite (concat_slices string uris 100) by lia. reflexivity.
Qed.

Lemma batches_length :
  List.length (batches uris) = (List.length uris + 99) / 100.
Proof.
  unfold batches, range. rewrite length_map.
  rewrite (length_range_from 100) by lia.
  f_equal. lia.
Qed.

Lemma batches_bounded :
  Forall (fun b => List.length b <= 100) (batches uris).
Proof.
  unfold batches. rewrite Forall_map. apply Forall_forall.
  intros i _. apply slice_length. lia.
Qed.

End BatchesOfHundred.

(* ================================================================== *)
(** * What the two passes do to the playlist *)

Section Effects.

Lemma mem_app u us1 us2 : mem u (us1 ++ us2) = mem u us1 || mem u us2.
Proof. apply existsb_app. Qed.

Lemma mem_In u us : mem u us = true <-> In u us.
Proof.
  unfold mem. rewrite existsb_exists. split.
  - intros [x [H E]]. apply String.eqb_eq in E. now subst.
  - intros H. exists u. split; [assumption | apply String.eqb_refl].
Qed.

Lemma filter_filter {A} (p q : A -> bool) l :
  filter q (filter p l) = filter (fun x => p x && q x) l.
Proof.
  induction l as [|x l IH]; simpl; [reflexivity|].
  destruct (p x); simpl; [destruct (q x)|]; now rewrite IH.
Qed.

(** After the removal pass no URI of any batch is left. *)
Lemma replay_removals pid : forall bs us,
  replay (succeeded (map (RemoveAllOccurrences pid) bs)) us
  = filter (fun u => negb (mem u (List.concat bs))) us.
Proof.
  induction bs as [|b bs IH]; intros us.
  - simpl. induction us as [|u us IHus]; simpl; [reflexivity|].
    now rewrite <- IHus.
  - change (replay (succeeded (map (RemoveAllOccurrences pid) (b :: bs))) us)
      with (replay (succeeded (map (RemoveAllOccurrences pid) bs))
                   (filter (fun u => negb (mem u b)) us)).
    rewrite IH, filter_filter. apply filter_ext. intros u.
    cbn [List.concat]. now rewrite mem_app, negb_orb.
Qed.

(** The insertion pass appends every batch, in order. *)
Lemma replay_insertions pid : forall bs us,
  replay (succeeded (map (AddItems pid) bs)) us = us ++ List.concat bs.
Proof.
  induction bs as [|b bs IH]; intros us.
  - simpl. now rewrite app_nil_r.
  - change (replay (succeeded (map (AddItems pid) (b :: bs))) us)
      with (replay (succeeded (map (AddItems pid) bs)) (us ++ b)).
    rewrite IH. cbn [List.concat]. now rewrite app_assoc.
Qed.

Lemma filter_not_mem_filter (p : string -> bool) us :
  filter (fun u => negb (mem u (filter p us))) us
  = filter (fun u => negb (p u)) us.
Proof.
  apply filter_ext_in. intros u Hu. f_equal.
  destruct (p u) eqn:E.
  - apply mem_In, filter_In. now split.
  - destruct (mem u (filter p us)) eqn:Mu; [|reflexivity].
    apply mem_In, filter_In in Mu. destruct Mu. congruence.
Qed.

Lemma filter_partition {A} (p : A -> bool) l :
  Permutation (filter (fun x => negb (p x)) l ++ filter p l) l.
Proof.
  induction l as [|x l IH]; simpl; [constructor|].
  destruct (p x); simpl.
  - apply Permutation_sym, Permutation_cons_app. now apply Permutation_sym.
  - now constructor.
Qed.

Lemma filter_idem {A} (p : A -> bool) l : filter p (filter p l) = filter p l.
Proof. rewrite filter_filter. apply filter_ext. intros x. now destruct (p x). Qed.

Lemma filter_none {A} (p : A -> bool) l :
  filter p (filter (fun x => negb (p x)) l) = [].
Proof.
  rewrite filter_filter. induction l as [|x l IH]; simpl; [reflexivity|].
  now destruct (p x).
Qed.

(** The playlist after a complete refresh: the entries the enumeration
    skipped stay where they were, the eligible ones follow in their
    original order. *)
Lemma replay_refresh pid ftr w :
  fetch_only ftr ->
  replay ((Playlist pid, true) :: ftr
          ++ succeeded (removal_calls pid (eligible_uris w))
          ++ succeeded (insertion_calls pid (eligible_uris w)))
         (w_uris w)
  = skipped_uris w ++ eligible_uris w.
Proof.
  intros Hf.
  change ((Playlist pid, true) :: ftr ++ ?x)
    with (((Playlist pid, true) :: ftr) ++ x).
  rewrite !replay_app.
  rewrite (replay_fetch_only ((Playlist pid, true) :: ftr))
    by (constructor; [reflexivity | assumption]).
  unfold removal_calls, insertion_calls.
  rewrite replay_removals, replay_insertions, batches_concat.
  unfold eligible_uris at 1. now rewrite filter_not_mem_filter.
Qed.

Lemma calls_of_advance tr msgs w : calls_of w (advance tr msgs w) = tr.
Proof.
  unfold calls_of, advance. cbn [w_log].
  rewrite skipn_app, skipn_all, Nat.sub_diag. reflexivity.
Qed.

Lemma mutations_app tr1 tr2 :
  mutations (tr1 ++ tr2) = mutations tr1 ++ mutations tr2.
Proof. unfold mutations. now rewrite map_app, filter_app. Qed.

Lemma mutations_fetch_only tr : fetch_only tr -> mutations tr = [].
Proof.
  unfold mutations. induction 1 as [|e tr He _ IH]; [reflexivity|].
  simpl. now rewrite He.
Qed.

Lemma mutations_succeeded cs :
  Forall (fun c => is_mutation c = true) cs -> mutations (succeeded cs) = cs.
Proof.
  unfold mutations, succeeded. rewrite map_map. simpl. rewrite map_id.
  induction 1 as [|c cs Hc _ IH]; [reflexivity|].
  simpl. now rewrite Hc, IH.
Qed.

Lemma removal_calls_mutations pid bs :
  Forall (fun c => is_mutation c = true) (map (RemoveAllOccurrences pid) bs).
Proof. rewrite Forall_map. now apply Forall_forall. Qed.

Lemma insertion_calls_mutations pid bs :
  Forall (fun c => is_mutation c = true) (map (AddItems pid) bs).
Proof. rewrite Forall_map. now apply Forall_forall. Qed.

Lemma not_failed_in_ok tr c : all_ok tr -> ~ In (c, false) tr.
Proof.
  intros H Hin. unfold all_ok in H. rewrite Forall_forall in H.
  specialize (H _ Hin). discriminate.
Qed.

End Effects.

(* ================================================================== *)
(** * A run on a healthy service *)

Section Healthy.

Variable fuel : nat.
Variable url : string.
Variable w : World.
Hypothesis resolved : extract_playlist_id url = Val (w_id w).
Hypothesis healthy : no_faults w.
Hypothesis limit_pos : 0 < w_limit w.
Hypothesis enough : List.length (w_uris w) < fuel.

(** When the reference names the hosted playlist and no call fails, the
    run terminates, with the calls and the lines below. *)
Lemma refresh_playlist_total :
  refresh_playlist fuel url w =
  match eligible_uris w with
  | [] =>
      (Val false,
       advance (succeeded (Playlist (w_id w) :: fetch_calls w))
         [MsgWorkingWith (w_id w); MsgPlaylist (w_name w) (w_owner w);
          MsgNoTracks] w)
  | _ :: _ =>
      (Val true,
       advance
         (succeeded (Playlist (w_id w) :: fetch_calls w
                     ++ removal_calls (w_id w) (eligible_uris w)
                     ++ insertion_calls (w_id w) (eligible_uris w)))
         [MsgWorkingWith (w_id w); MsgPlaylist (w_name w) (w_owner w);
          MsgFound (List.length (eligible_uris w)); MsgRemoving; MsgReadding;
          MsgSuccess (w_name w)] w)
  end.
Proof.
  unfold refresh_playlist, refresh_body.
  rewrite try_bind, resolved, try_print by reflexivity.
  unfold sp_playlist. rewrite try_invoke, emit_start.
  set (w0 := advance [] [MsgWorkingWith (w_id w)] w).
  change (w_faults w0) with (w_faults w). rewrite healthy.
  unfold hosted at 1. change (w_id w0) with (w_id w).
  rewrite String.eqb_refl. cbn [orb negb fst snd].
  change (w_name w0) with (w_name w). change (w_owner w0) with (w_owner w).
  rewrite try_print by reflexivity.
  unfold w0. rewrite advance_advance, emit_advance.
  cbn [app]. clear w0. set (w1 := advance _ _ w).
  rewrite try_bind.
  change (w_id w) with (w_id w1) at 1.
  rewrite get_playlist_tracks_total by assumption.
  change (w_id w1) with (w_id w).
  change (w_catalog w1) with (w_catalog w).
  change (w_uris w1) with (w_uris w).
  change (fetch_calls w1) with (fetch_calls w).
  unfold w1. rewrite advance_advance. cbn [app]. clear w1.
  remember (tracks_of (w_catalog w) (w_uris w)) as a eqn:T.
  destruct a as [|t a].
  - symmetry in T. apply tracks_of_nil in T. fold (eligible_uris w) in T.
    rewrite T. unfold try_except. cbn [bind print ret echo].
    now rewrite emit_advance.
  - assert (U : map track_uri (t :: a) = eligible_uris w)
      by (rewrite T; apply track_uris_of).
    rewrite U.
    replace (List.length (t :: a)) with (List.length (eligible_uris w))
      by (now rewrite <- U, length_map).
    destruct (eligible_uris w) as [|u us] eqn:E; [discriminate|].
    rewrite <- E. clear T U t a.
    rewrite !try_print by reflexivity. rewrite !emit_advance. cbn [app].
    rewrite try_bind.
    rewrite (for_each_map (fun i => slice (eligible_uris w) i (i + 100))
               (sp_playlist_remove_all_occurrences_of_items (w_id w))).
    fold (batches (eligible_uris w)).
    rewrite (mutation_loop_total (w_id w) (RemoveAllOccurrences (w_id w))
               (sp_playlist_remove_all_occurrences_of_items (w_id w))
               (fun b w => eq_refl));
      [| exact healthy | apply String.eqb_refl].
    rewrite advance_advance, try_print by reflexivity.
    rewrite emit_advance. cbn [app].
    rewrite try_bind.
    rewrite (for_each_map (fun i => slice (eligible_uris w) i (i + 100))
               (sp_playlist_add_items (w_id w))).
    fold (batches (eligible_uris w)).
    rewrite (mutation_loop_total (w_id w) (AddItems (w_id w))
               (sp_playlist_add_items (w_id w))
               (fun b w => eq_refl));
      [| exact healthy | apply String.eqb_refl].
    rewrite advance_advance. unfold try_except. cbn [bind print ret echo].
    rewrite emit_advance. cbn [app].
    unfold removal_calls, insertion_calls.
    cbn [succeeded map]. rewrite <- !app_assoc.
    rewrite <- !succeeded_app. reflexivity.
Qed.

End Healthy.

(* ================================================================== *)
(** * Properties of [refresh_playlist] *)

Section RefreshFacts.

Lemma refresh_cases fuel url w r w' :
  refresh_playlist fuel url w = (r, w') ->
  exists tr msgs,
    refresh_run fuel w url r tr msgs /\ w' = advance tr msgs w /\
    calls_of w w' = tr.
Proof.
  intros H. destruct (refresh_playlist_runs fuel url w) as [tr [msgs [R W]]].
  rewrite H in R, W. cbn [fst snd] in R, W.
  exists tr, msgs. split; [exact R|]. split; [exact W|].
  rewrite W. apply calls_of_advance.
Qed.

Lemma firstn_prefix {A} (l1 l2 : list A) :
  firstn (List.length l1) (l1 ++ l2) = l1.
Proof. induction l1 as [|x l1 IH]; simpl; [reflexivity | now rewrite IH]. Qed.

Lemma mutations_after_fetches pid ftr tr :
  fetch_only ftr ->
  mutations ((Playlist pid, true) :: ftr ++ tr) = mutations tr.
Proof.
  intros Hf.
  change ((Playlist pid, true) :: ftr ++ tr)
    with (((Playlist pid, true) :: ftr) ++ tr).
  rewrite mutations_app, mutations_fetch_only; [reflexivity|].
  constructor; [reflexivity | assumption].
Qed.

Lemma mutations_failed c : is_mutation c = true -> mutations [(c, false)] = [c].
Proof. intros H. unfold mutations. simpl. now rewrite H. Qed.

(** The mutation calls of a run are the first calls of the plan: the
    removals of all batches, then the insertions of all batches. *)
Lemma refresh_run_mutations fuel w url r tr msgs :
  refresh_run fuel w url r tr msgs ->
  exists pid k,
    mutations tr
    = firstn k (removal_calls pid (eligible_uris w)
                ++ insertion_calls pid (eligible_uris w)).
Proof.
  intros R. inversion R; subst.
  - exists EmptyString, 0. reflexivity.
  - exists EmptyString, 0. reflexivity.
  - exists pid, 0. reflexivity.
  - exists pid, 0. rewrite mutations_after_fetches by assumption.
    apply mutations_fetch_only. now repeat constructor.
  - exists pid, 0. rewrite <- (app_nil_r ftr).
    now rewrite mutations_after_fetches.
  - exists pid, 0. rewrite <- (app_nil_r ftr).
    now rewrite mutations_after_fetches.
  - exists pid, (List.length (map (RemoveAllOccurrences pid) (pre ++ [b]))).
    rewrite mutations_after_fetches, mutations_app by assumption.
    rewrite mutations_succeeded by apply removal_calls_mutations.
    rewrite mutations_failed by reflexivity.
    unfold removal_calls.
    match goal with H : batches _ = _ |- _ => rewrite H end.
    replace (pre ++ b :: post) with ((pre ++ [b]) ++ post)
      by (now rewrite <- app_assoc).
    rewrite (map_app _ (pre ++ [b]) post), <- app_assoc, firstn_prefix.
    now rewrite map_app.
  - exists pid,
      (List.length (removal_calls pid (eligible_uris w)
                    ++ map (AddItems pid) (pre ++ [b]))).
    rewrite mutations_after_fetches, !mutations_app by assumption.
    rewrite !mutations_succeeded
      by (apply removal_calls_mutations || apply insertion_calls_mutations).
    rewrite mutations_failed by reflexivity.
    unfold insertion_calls.
    match goal with H : batches _ = _ |- _ => rewrite H end.
    replace (pre ++ b :: post) with ((pre ++ [b]) ++ post)
      by (now rewrite <- app_assoc).
    rewrite (map_app _ (pre ++ [b]) post).
    rewrite (app_assoc _ (map (AddItems pid) (pre ++ [b]))), firstn_prefix.
    now rewrite map_app.
  - exists pid,
      (List.length (removal_calls pid (eligible_uris w)
                    ++ insertion_calls pid (eligible_uris w))).
    rewrite firstn_all.
    rewrite mutations_after_fetches, !mutations_app by assumption.
    now rewrite !mutations_succeeded
      by (apply removal_calls_mutations || apply insertion_calls_mutations).
Qed.

Lemma In_plan_eligible pid w c u :
  In c (removal_calls pid (eligible_uris w)
        ++ insertion_calls pid (eligible_uris w)) ->
  In u (batch_of c) ->
  In u (eligible_uris w).
Proof.
  intros Hc Hu. rewrite <- (batches_concat (eligible_uris w)).
  apply in_concat.
  apply in_app_or in Hc. unfold removal_calls, insertion_calls in Hc.
  destruct Hc as [Hc|Hc]; apply in_map_iff in Hc;
    destruct Hc as [b [<- Hb]]; exists b; auto.
Qed.

End RefreshFacts.

Section Failures.

Lemma mutations_nil_fetch_only tr : mutations tr = [] -> fetch_only tr.
Proof.
  unfold mutations, fetch_only.
  induction tr as [|[c ok] tr IH]; simpl; intros H; [constructor|].
  destruct (is_mutation c) eqn:E; [discriminate|].
  constructor; [exact E | now apply IH].
Qed.

Lemma failed_is_last done c0 c :
  all_ok done -> In (c, false) (done ++ [(c0, false)]) -> c = c0.
Proof.
  intros Hok Hin. apply in_app_or in Hin. destruct Hin as [Hin|[Hin|[]]].
  - now apply not_failed_in_ok in Hin.
  - now inversion Hin.
Qed.

Lemma replay_failed done c us :
  replay (done ++ [(c, false)]) us = replay done us.
Proof. now rewrite replay_app. Qed.

(** A run in which a call fails: the call is the last one of the run, all
    calls before it succeeded, and the result is [False]. *)
Lemma refresh_run_failure fuel w url r tr msgs c :
  refresh_run fuel w url r tr msgs -> In (c, false) tr ->
  r = Val false /\
  exists done, tr = done ++ [(c, false)] /\ all_ok done /\
               (is_mutation c = false -> mutations tr = []).
Proof.
  intros R Hin.
  assert (P : forall done c0,
             tr = done ++ [(c0, false)] -> all_ok done ->
             (is_mutation c0 = false -> mutations tr = []) ->
             exists done', tr = done' ++ [(c, false)] /\ all_ok done' /\
                           (is_mutation c = false -> mutations tr = [])).
  { intros done c0 E Hok Hm. rewrite E in Hin.
    apply failed_is_last in Hin; [|assumption]. subst c0. eauto. }
  assert (Q : all_ok tr -> False)
    by (intros Hok; now apply not_failed_in_ok in Hin).
  inversion R; subst.
  - destruct Hin.
  - destruct Hin.
  - split; [reflexivity|]. apply (P [] (Playlist pid)); auto. constructor.
  - split; [reflexivity|].
    apply (P ((Playlist pid, true) :: ftr) c0); auto.
    + now constructor.
    + intros _. rewrite mutations_after_fetches by assumption.
      unfold mutations. simpl.
      match goal with H : is_mutation c0 = false |- _ => now rewrite H end.
  - exfalso. apply Q. now constructor.
  - exfalso. apply Q. now constructor.
  - split; [reflexivity|].
    apply (P ((Playlist pid, true) :: ftr
              ++ succeeded (map (RemoveAllOccurrences pid) pre))
             (RemoveAllOccurrences pid b)).
    + cbn [app]. now rewrite <- app_assoc.
    + constructor; [reflexivity|].
      apply all_ok_app; [assumption | apply all_ok_succeeded].
    + discriminate.
  - split; [reflexivity|].
    apply (P ((Playlist pid, true) :: ftr
              ++ succeeded (removal_calls pid (eligible_uris w))
              ++ succeeded (map (AddItems pid) pre))
             (AddItems pid b)).
    + cbn [app]. now rewrite <- !app_assoc.
    + constructor; [reflexivity|].
      repeat apply all_ok_app; auto using all_ok_succeeded.
    + discriminate.
  - exfalso. apply Q. constructor; [reflexivity|].
    repeat apply all_ok_app; auto using all_ok_succeeded.
Qed.

End Failures.

Section RefreshClaims.

(** C5.  When a removal or insertion call of a run fails, [refresh_playlist]
    returns [False]; the failed call is the last call of the run, so no
    further batch is attempted; every call before it succeeded and the
    playlist is left as those calls made it, nothing being undone.  The
    mutation calls issued are the first ones of the plan (the removals of
    all batches, then the insertions of all batches). *)
Theorem mutation_failure_aborts fuel url w r w' c :
  refresh_playlist fuel url w = (r, w') ->
  is_mutation c = true ->
  In (c, false) (calls_of w w') ->
  r = Val false /\
  (exists done,
     calls_of w w' = done ++ [(c, false)] /\ all_ok done /\
     w_uris w' = replay done (w_uris w)) /\
  (exists pid k,
     mutations (calls_of w w')
     = firstn k (removal_calls pid (eligible_uris w)
                 ++ insertion_calls pid (eligible_uris w))).
Proof.
  intros H Hc Hin.
  destruct (refresh_cases _ _ _ _ _ H) as [tr [msgs [R [W C]]]].
  rewrite C in *.
  destruct (refresh_run_failure _ _ _ _ _ _ c R Hin) as [Hr [done [E [Hok _]]]].
  split; [exact Hr|]. split.
  - exists done. repeat split; auto.
    rewrite W. cbn [advance w_uris]. rewrite E. apply replay_failed.
  - eapply refresh_run_mutations; eauto.
Qed.

(** C6.  When the metadata fetch or a page fetch of a run fails,
    [refresh_playlist] returns [False], the run contains no mutation call
    and the playlist is as it was. *)
Theorem fetch_failure_leaves_playlist fuel url w r w' c :
  refresh_playlist fuel url w = (r, w') ->
  is_mutation c = false ->
  In (c, false) (calls_of w w') ->
  r = Val false /\
  mutations (calls_of w w') = [] /\
  w_uris w' = w_uris w.
Proof.
  intros H Hc Hin.
  destruct (refresh_cases _ _ _ _ _ H) as [tr [msgs [R [W C]]]].
  rewrite C in *.
  destruct (refresh_run_failure _ _ _ _ _ _ c R Hin) as [Hr [done [E [Hok Hm]]]].
  specialize (Hm Hc). repeat split; auto.
  rewrite W. cbn [advance w_uris].
  now apply replay_fetch_only, mutations_nil_fetch_only.
Qed.

(** A reference in which no pattern occurs, on a standard output that takes
    it or not. *)
Lemma extract_playlist_id_Exc_occurs url e :
  extract_playlist_id url = Exc e ->
  forall lit, In lit patterns -> ~ occurs lit url.
Proof.
  intros H lit Hl [pre [c [rest [E Hc]]]]. subst url.
  destruct (re_search_occurrence lit pre c rest Hc) as [g Hg].
  destruct (extract_with_some patterns _ lit g Hl Hg) as [g' Hg'].
  unfold extract_playlist_id in H. congruence.
Qed.

Lemma refresh_playlist_unresolved fuel url w :
  (forall lit, In lit patterns -> ~ occurs lit url) ->
  refresh_playlist fuel url w =
  if encodable url
  then (Val false, emit (MsgError (ValueError url)) w)
  else (Exc (UnicodeEncodeError url), w).
Proof.
  intros H.
  assert (X : extract_playlist_id url = Exc (ValueError url)).
  { apply extract_with_Exc. intros lit Hl. apply re_search_None_iff. auto. }
  unfold refresh_playlist, refresh_body.
  rewrite try_bind, X. apply handler_value_error.
Qed.

(** C9 (a defect of the code).  On a reference in which no pattern occurs
    and which standard output cannot encode, [extract_playlist_id] raises
    [ValueError], the handler of [refresh_playlist] catches it, and the
    [print] of the handler raises [UnicodeEncodeError]: the exception
    leaves [refresh_playlist] and no boolean is returned. *)
Theorem refresh_playlist_leaks :
  let w := demo_world (demo_uris 3) 2 never in
  encodable undecoded_url = false /\
  refresh_body 5 undecoded_url w = (Exc (ValueError undecoded_url), w) /\
  refresh_playlist 5 undecoded_url w
  = (Exc (UnicodeEncodeError undecoded_url), w).
Proof. intros w. repeat split; vm_compute; reflexivity. Qed.

(** X20.  An exception leaves [refresh_playlist] in one case only: no
    pattern occurs in the reference and standard output cannot encode the
    reference.  The exception is then the [UnicodeEncodeError] of the
    error line, and nothing was called or printed.  An exception of a
    remote call is caught and turned into [False]; and with a positive
    page size a run outside that case returns a boolean. *)
Theorem refresh_playlist_raises fuel url w :
  ((exists e, fst (refresh_playlist fuel url w) = Exc e) <->
   ((forall lit, In lit patterns -> ~ occurs lit url) /\
    encodable url = false)) /\
  (forall e, fst (refresh_playlist fuel url w) = Exc e ->
     e = UnicodeEncodeError url /\ snd (refresh_playlist fuel url w) = w) /\
  (forall c w1,
     refresh_body fuel url w = (Exc (SpotifyException c), w1) ->
     refresh_playlist fuel url w
     = (Val false, emit (MsgError (SpotifyException c)) w1)) /\
  (0 < w_limit w -> List.length (w_uris w) < fuel ->
   (exists b, fst (refresh_playlist fuel url w) = Val b) \/
   fst (refresh_playlist fuel url w) = Exc (UnicodeEncodeError url)).
Proof.
  destruct (refresh_playlist_runs fuel url w) as [tr [msgs [R W]]].
  assert (B : forall e, fst (refresh_playlist fuel url w) = Exc e ->
              e = UnicodeEncodeError url /\
              snd (refresh_playlist fuel url w) = w /\
              (forall lit, In lit patterns -> ~ occurs lit url) /\
              encodable url = false).
  { intros e He. rewrite He in R. inversion R; subst.
    split; [reflexivity|]. split; [rewrite W; apply advance_nil|].
    split; [|assumption]. eapply extract_playlist_id_Exc_occurs; eauto. }
  split; [split|split; [|split]].
  - intros [e He]. destruct (B e He) as [_ [_ H]]. exact H.
  - intros [H P]. rewrite (refresh_playlist_unresolved fuel url w H), P.
    cbn [fst]. eauto.
  - intros e He. destruct (B e He) as [H1 [H2 _]]. now split.
  - intros c w1 He. unfold refresh_playlist, try_except. now rewrite He.
  - intros L F. inversion R; eauto.
    exfalso. match goal with H : ~ _ |- _ => apply H end. now split.
Qed.

End RefreshClaims.

Section RefreshWitnesses.

Lemma mutation_failure_aborts_witness :
  let w := demo_world (demo_uris 250) 100 (Nat.eqb 5) in
  let c := RemoveAllOccurrences "37i9dQZF1" (slice (demo_uris 250) 100 200) in
  let w' := snd (refresh_playlist 300 demo_url w) in
  (is_mutation c = true /\ In (c, false) (calls_of w w')) /\
  fst (refresh_playlist 300 demo_url w) = Val false /\
  (exists done,
     calls_of w w' = done ++ [(c, false)] /\ all_ok done /\
     w_uris w' = replay done (w_uris w)) /\
  (exists pid k,
     mutations (calls_of w w')
     = firstn k (removal_calls pid (eligible_uris w)
                 ++ insertion_calls pid (eligible_uris w))).
Proof.
  intros w c w'.
  assert (Hin : In (c, false) (calls_of w w')) by (vm_compute; pick).
  split; [split; [reflexivity | exact Hin]|].
  destruct (mutation_failure_aborts 300 demo_url w
              (fst (refresh_playlist 300 demo_url w)) w' c
              (surjective_pairing _) eq_refl Hin) as [H1 [H2 H3]].
  auto.
Defined.

Lemma fetch_failure_leaves_playlist_witness :
  let w := demo_world (demo_uris 250) 100 (Nat.eqb 2) in
  let w' := snd (refresh_playlist 300 demo_url w) in
  (is_mutation (Next 100) = false /\ In (Next 100, false) (calls_of w w')) /\
  fst (refresh_playlist 300 demo_url w) = Val false /\
  mutations (calls_of w w') = [] /\
  w_uris w' = w_uris w.
Proof.
  intros w w'.
  assert (Hin : In (Next 100, false) (calls_of w w')) by (vm_compute; pick).
  split; [split; [reflexivity | exact Hin]|].
  exact (fetch_failure_leaves_playlist 300 demo_url w
           (fst (refresh_playlist 300 demo_url w)) w' (Next 100)
           (surjective_pairing _) eq_refl Hin).
Defined.

Lemma refresh_playlist_raises_witness :
  let w := demo_world (demo_uris 250) 100 (Nat.eqb 2) in
  (0 < w_limit w /\ List.length (w_uris w) < 300) /\
  fst (refresh_body 300 demo_url w) = Exc (SpotifyException (Next 100)) /\
  fst (refresh_playlist 300 demo_url w) = Val false /\
  fst (refresh_playlist 300 undecoded_url w)
  = Exc (UnicodeEncodeError undecoded_url).
Proof.
  intros w.
  assert (L : 0 < w_limit w) by (vm_compute; lia).
  assert (F : List.length (w_uris w) < 300)
    by (apply Nat.ltb_lt; vm_compute; reflexivity).
  split; [exact (conj L F)|]. split; [vm_compute; reflexivity|].
  split.
  - destruct (refresh_playlist_raises 300 demo_url w) as [_ [_ [H3 _]]].
    rewrite (H3 (Next 100) (snd (refresh_body 300 demo_url w))).
    + reflexivity.
    + vm_compute. reflexivity.
  - destruct (refresh_playlist_raises 300 undecoded_url w) as [[_ H1] [H2 _]].
    destruct H1 as [e He].
    + split; [|reflexivity]. intros lit Hl. apply re_search_None_iff.
      destruct Hl as [<-|[<-|[<-|[]]]]; reflexivity.
    + rewrite He. f_equal. exact (proj1 (H2 e He)).
Defined.

End RefreshWitnesses.

Section MembershipClaims.

(** C1 (amended).  When both passes of a run complete ([refresh_playlist]
    returns [True]), the playlist consists of the entries the enumeration
    skipped, in place, followed by the eligible URIs in their original
    order, duplicates included wherever they stood.  So the URIs of the
    playlist after the refresh are a permutation of the URIs before it,
    and the eligible URIs are the same list before and after. *)
Theorem refresh_preserves_membership fuel url w w' :
  refresh_playlist fuel url w = (Val true, w') ->
  w_uris w' = skipped_uris w ++ eligible_uris w /\
  Permutation (w_uris w') (w_uris w) /\
  eligible_uris w' = eligible_uris w.
Proof.
  intros H.
  destruct (refresh_cases _ _ _ _ _ H) as [tr [msgs [R [W _]]]].
  inversion R; subst tr msgs.
  assert (U : w_uris w' = skipped_uris w ++ eligible_uris w)
    by (rewrite W; cbn [advance w_uris]; now apply replay_refresh).
  split; [exact U|]. split.
  - rewrite U. apply filter_partition.
  - unfold eligible_uris at 1. rewrite U, W. cbn [advance w_catalog].
    rewrite filter_app. unfold skipped_uris, eligible_uris.
    now rewrite filter_none, filter_idem.
Qed.

Lemma refresh_preserves_membership_witness :
  let w := demo_world ("spotify:local:a" :: demo_uris 250)%string 100 never in
  let w' := snd (refresh_playlist 300 demo_url w) in
  refresh_playlist 300 demo_url w = (Val true, w') /\
  w_uris w' = skipped_uris w ++ eligible_uris w /\
  Permutation (w_uris w') (w_uris w) /\
  eligible_uris w' = eligible_uris w.
Proof.
  intros w w'.
  assert (H : refresh_playlist 300 demo_url w = (Val true, w'))
    by (vm_compute; reflexivity).
  split; [exact H|].
  exact (refresh_preserves_membership 300 demo_url w w' H).
Defined.

(** C1 as stated fails: an entry that the enumeration skips (here a local
    file) is still in the playlist after a successful refresh, so the URIs
    of the playlist are not the eligible URIs alone. *)
Lemma refresh_membership_counterexample :
  let w := demo_world ["spotify:local:a"; "spotify:track:b"]%string 100 never in
  let w' := snd (refresh_playlist 3 demo_url w) in
  refresh_playlist 3 demo_url w = (Val true, w') /\
  eligible_uris w = ["spotify:track:b"%string] /\
  w_uris w' = ["spotify:local:a"; "spotify:track:b"]%string /\
  ~ Permutation (w_uris w') (eligible_uris w).
Proof.
  intros w w'.
  split; [vm_compute; reflexivity|].
  split; [vm_compute; reflexivity|].
  split; [vm_compute; reflexivity|].
  intros P. apply Permutation_length in P. vm_compute in P. discriminate.
Qed.

(** C2 (amended).  On a playlist without eligible entry no run issues a
    mutation call, the playlist is left as it was and the result is never
    [True].  When the reference names the playlist and no fetch fails, the
    run prints "No tracks found in playlist." and no error line, and
    returns [False], the value it also returns on failure. *)
Theorem refresh_empty_playlist fuel url w r w' :
  eligible_uris w = [] ->
  refresh_playlist fuel url w = (r, w') ->
  mutations (calls_of w w') = [] /\
  w_uris w' = w_uris w /\
  r <> Val true /\
  (extract_playlist_id url = Val (w_id w) -> no_faults w ->
   0 < w_limit w -> List.length (w_uris w) < fuel ->
   r = Val false /\
   w_out w' = w_out w ++ [MsgWorkingWith (w_id w);
                          MsgPlaylist (w_name w) (w_owner w); MsgNoTracks]).
Proof.
  intros E H.
  destruct (refresh_cases _ _ _ _ _ H) as [tr [msgs [R [W C]]]].
  destruct (refresh_run_mutations _ _ _ _ _ _ R) as [pid [k M]].
  unfold removal_calls, insertion_calls in M. rewrite E in M.
  change (batches []) with (@nil (list string)) in M. simpl in M.
  rewrite firstn_nil in M.
  rewrite C. split; [exact M|]. split; [|split].
  - rewrite W. cbn [advance w_uris].
    now apply replay_fetch_only, mutations_nil_fetch_only.
  - intros ->. inversion R; subst. congruence.
  - intros X F L Hf.
    rewrite (refresh_playlist_total fuel url w X F L Hf), E in H.
    inversion H; subst. split; reflexivity.
Qed.

Lemma refresh_empty_playlist_witness :
  let w := demo_world ["spotify:local:a"; "gone"]%string 100 never in
  let w' := snd (refresh_playlist 3 demo_url w) in
  (eligible_uris w = [] /\
   refresh_playlist 3 demo_url w = (Val false, w')) /\
  mutations (calls_of w w') = [] /\
  w_uris w' = w_uris w /\
  Val false <> Val true :> Res bool /\
  w_out w' = [MsgWorkingWith "37i9dQZF1"; MsgPlaylist "Mix" "owner"; MsgNoTracks].
Proof.
  intros w w'.
  assert (E : eligible_uris w = []) by reflexivity.
  assert (H : refresh_playlist 3 demo_url w = (Val false, w'))
    by (vm_compute; reflexivity).
  split; [now split|].
  destruct (refresh_empty_playlist 3 demo_url w (Val false) w' E H)
    as [H1 [H2 [H3 H4]]].
  assert (H5 : Val false = Val false /\
               w_out w' = w_out w ++ [MsgWorkingWith (w_id w);
                                      MsgPlaylist (w_name w) (w_owner w);
                                      MsgNoTracks]).
  { apply H4.
    - reflexivity.
    - intros n. reflexivity.
    - vm_compute. lia.
    - vm_compute. lia. }
  split; [exact H1|]. split; [exact H2|]. split; [exact H3|].
  exact (proj2 H5).
Defined.

(** C2 as stated fails: on a playlist without eligible entry the run
    returns [False], which is the result of a failed run (here one whose
    reference is not resolved). *)
Lemma refresh_empty_counterexample :
  let w := demo_world ["spotify:local:a"; "gone"]%string 100 never in
  eligible_uris w = [] /\
  fst (refresh_playlist 3 demo_url w) = Val false /\
  fst (refresh_playlist 3 "not-a-playlist" w) = Val false /\
  fst (refresh_playlist 3 demo_url w)
    = fst (refresh_playlist 3 "not-a-playlist" w).
Proof. intros w. repeat split; vm_compute; reflexivity. Qed.

End MembershipClaims.

Section BatchingClaims.

Lemma In_firstn {A} n (l : list A) x : In x (firstn n l) -> In x l.
Proof.
  intros H. rewrite <- (firstn_skipn n l). apply in_or_app. now left.
Qed.

(** C3.  A list of M URIs is cut into ceil(M/100) batches (that is,
    (M + 99) / 100), each of at most 100 URIs, whose concatenation is the
    list itself; and in a run in which both passes complete, the removal
    calls and the insertion calls carry the same batches, in the same
    order. *)
Theorem batches_partition (uris : list string) :
  List.length (batches uris) = (List.length uris + 99) / 100 /\
  Forall (fun b => List.length b <= 100) (batches uris) /\
  List.concat (batches uris) = uris /\
  (forall fuel url w w',
     refresh_playlist fuel url w = (Val true, w') ->
     exists pid,
       mutations (calls_of w w')
       = map (RemoveAllOccurrences pid) (batches (eligible_uris w))
         ++ map (AddItems pid) (batches (eligible_uris w))).
Proof.
  split; [apply batches_length|].
  split; [apply batches_bounded|].
  split; [apply batches_concat|].
  intros fuel url w w' H.
  destruct (refresh_cases _ _ _ _ _ H) as [tr [msgs [R [W C]]]].
  rewrite C. inversion R; subst tr msgs. exists pid.
  rewrite mutations_after_fetches, !mutations_app by assumption.
  now rewrite !mutations_succeeded
    by (apply removal_calls_mutations || apply insertion_calls_mutations).
Qed.

Lemma batches_partition_witness :
  let w := demo_world (demo_uris 250) 100 never in
  let w' := snd (refresh_playlist 300 demo_url w) in
  refresh_playlist 300 demo_url w = (Val true, w') /\
  List.length (batches (demo_uris 250)) = 3 /\
  map (@List.length string) (batches (demo_uris 250)) = [100; 100; 50] /\
  exists pid,
    mutations (calls_of w w')
    = map (RemoveAllOccurrences pid) (batches (eligible_uris w))
      ++ map (AddItems pid) (batches (eligible_uris w)).
Proof.
  intros w w'.
  assert (H : refresh_playlist 300 demo_url w = (Val true, w'))
    by (vm_compute; reflexivity).
  split; [exact H|].
  destruct (batches_partition (demo_uris 250)) as [H1 [_ [_ H4]]].
  split; [rewrite H1; vm_compute; reflexivity|].
  split; [vm_compute; reflexivity|].
  exact (H4 300 demo_url w w' H).
Defined.

(** C4.  On a service with a positive page size and no failing call, the
    enumeration returns the tracks of exactly the eligible entries, in
    playlist order, whatever the page size, after fetching the first page
    and the pages at the offsets [range(limit, len, limit)].  An entry
    without a track or without an id is left out, and in every run of
    [refresh_playlist] every URI of every mutation call is the URI of an
    eligible entry of the playlist. *)
Theorem enumeration_complete fuel w :
  0 < w_limit w -> no_faults w -> List.length (w_uris w) < fuel ->
  get_playlist_tracks fuel (w_id w) w
  = (Val (tracks_of (w_catalog w) (w_uris w)),
     advance (succeeded (fetch_calls w)) [] w) /\
  map track_uri (tracks_of (w_catalog w) (w_uris w)) = eligible_uris w /\
  List.length (tracks_of (w_catalog w) (w_uris w))
  = List.length (eligible_uris w) /\
  (forall fuel0 url w0 r w' c u,
     refresh_playlist fuel0 url w0 = (r, w') ->
     In c (mutations (calls_of w0 w')) -> In u (batch_of c) ->
     eligible (w_catalog w0) u = true /\ In u (w_uris w0)).
Proof.
  intros L F Hf.
  split; [now apply get_playlist_tracks_total|].
  split; [apply track_uris_of|].
  split; [apply length_eligible_tracks|].
  intros fuel0 url w0 r w' c u H Hc Hu.
  destruct (refresh_cases _ _ _ _ _ H) as [tr [msgs [R [W C]]]].
  rewrite C in Hc.
  destruct (refresh_run_mutations _ _ _ _ _ _ R) as [pid [k M]].
  rewrite M in Hc. apply In_firstn in Hc.
  pose proof (In_plan_eligible pid w0 c u Hc Hu) as E.
  unfold eligible_uris in E. apply filter_In in E. tauto.
Qed.

Lemma enumeration_complete_witness :
  let w := demo_world ("spotify:local:a" :: "gone" :: demo_uris 248)%string
                      100 never in
  (0 < w_limit w /\ no_faults w /\ List.length (w_uris w) < 300) /\
  fetch_calls w = [PlaylistTracks "37i9dQZF1"; Next 100; Next 200] /\
  fst (get_playlist_tracks 300 (w_id w) w)
  = Val (tracks_of (w_catalog w) (w_uris w)) /\
  map track_uri (tracks_of (w_catalog w) (w_uris w)) = demo_uris 248.
Proof.
  intros w.
  assert (L : 0 < w_limit w) by (vm_compute; lia).
  assert (F : no_faults w) by (intros n; reflexivity).
  assert (Hf : List.length (w_uris w) < 300)
    by (apply Nat.ltb_lt; vm_compute; reflexivity).
  split; [auto|]. split; [vm_compute; reflexivity|].
  destruct (enumeration_complete 300 w L F Hf) as [H1 [H2 _]].
  split; [now rewrite H1|].
  rewrite H2. vm_compute. reflexivity.
Defined.

End BatchingClaims.

(* ================================================================== *)
(** * Credentials and the command line *)

Section Credentials.

Local Open Scope string_scope.

Lemma truthy_Some o : truthy o = true -> exists s, o = Some s /\ nonempty s = true.
Proof. destruct o as [s|]; simpl; [eauto | discriminate]. Qed.

(** X1.  [get_credentials] returns exactly when SPOTIFY_CLIENT_ID and
    SPOTIFY_CLIENT_SECRET are both set to non-empty strings (an empty
    value counts as missing).  It then prints nothing and returns these
    two values; the redirect URI is the value of SPOTIFY_REDIRECT_URI when
    the variable is set, even to the empty string, and the local callback
    address otherwise. *)
Theorem get_credentials_returns (env : Env) :
  ((exists creds, snd (get_credentials env) = Returned creds) <->
   truthy (env "SPOTIFY_CLIENT_ID") = true /\
   truthy (env "SPOTIFY_CLIENT_SECRET") = true) /\
  (forall lines cid csec redirect,
     get_credentials env = (lines, Returned (cid, csec, redirect)) ->
     lines = [] /\
     (exists i s, cid = Some i /\ csec = Some s /\
                  env "SPOTIFY_CLIENT_ID" = Some i /\
                  env "SPOTIFY_CLIENT_SECRET" = Some s /\
                  nonempty i = true /\ nonempty s = true) /\
     (forall v, env "SPOTIFY_REDIRECT_URI" = Some v -> redirect = v) /\
     (env "SPOTIFY_REDIRECT_URI" = None ->
      redirect = "http://localhost:8888/callback")).
Proof.
  unfold get_credentials.
  destruct (truthy (env "SPOTIFY_CLIENT_ID")) eqn:Ti;
  destruct (truthy (env "SPOTIFY_CLIENT_SECRET")) eqn:Ts; cbn [app snd];
  (split; [split; [intros [creds H]; try discriminate; auto
                  | intros [H1 H2]; try discriminate; eauto] |]);
  intros lines cid csec redirect H; try discriminate.
  inversion H; subst. clear H.
  apply truthy_Some in Ti, Ts.
  destruct Ti as [i [Ei Ni]], Ts as [s [Es Ns]].
  split; [reflexivity|]. split.
  - exists i, s. repeat split; assumption.
  - split; [intros v Hv; now rewrite Hv | intros Hn; now rewrite Hn].
Qed.

(** X2.  When a required variable is unset or empty, [get_credentials]
    exits with status 1, and the variables it lists as missing are exactly
    the unset or empty ones among SPOTIFY_CLIENT_ID and
    SPOTIFY_CLIENT_SECRET; SPOTIFY_REDIRECT_URI is never listed. *)
Theorem get_credentials_exits (env : Env) lines code :
  get_credentials env = (lines, SysExit code) ->
  code = 1 /\
  (truthy (env "SPOTIFY_CLIENT_ID") = false \/
   truthy (env "SPOTIFY_CLIENT_SECRET") = false) /\
  (forall var,
     In (CliMissingVar var) lines <->
     (var = "SPOTIFY_CLIENT_ID" /\
      truthy (env "SPOTIFY_CLIENT_ID") = false) \/
     (var = "SPOTIFY_CLIENT_SECRET" /\
      truthy (env "SPOTIFY_CLIENT_SECRET") = false)).
Proof.
  unfold get_credentials.
  destruct (truthy (env "SPOTIFY_CLIENT_ID")) eqn:Ti;
  destruct (truthy (env "SPOTIFY_CLIENT_SECRET")) eqn:Ts; cbn [app map];
  intros H; inversion H; subst; clear H;
  (split; [reflexivity|]); (split; [auto|]);
  intros var; simpl; split; intros Hv;
  repeat match goal with
  | H : _ \/ _ |- _ => destruct H
  | H : _ /\ _ |- _ => destruct H
  | H : CliMissingVar _ = CliMissingVar _ |- _ => inversion H; clear H; subst
  | H : False |- _ => destruct H
  end; try discriminate; subst; auto 6.
Qed.

Lemma get_credentials_exits_witness :
  get_credentials demo_env_empty_secret
  = ([CliMissingHeader; CliMissingVar "SPOTIFY_CLIENT_SECRET";
      CliPleaseSet; CliExportId; CliExportSecret; CliExportRedirect],
     SysExit 1) /\
  truthy (demo_env_empty_secret "SPOTIFY_CLIENT_SECRET") = false.
Proof.
  assert (H : get_credentials demo_env_empty_secret
              = ([CliMissingHeader; CliMissingVar "SPOTIFY_CLIENT_SECRET";
                  CliPleaseSet; CliExportId; CliExportSecret;
                  CliExportRedirect], SysExit 1)) by reflexivity.
  split; [exact H|].
  destruct (get_credentials_exits demo_env_empty_secret _ _ H) as [_ [_ M]].
  destruct (proj1 (M "SPOTIFY_CLIENT_SECRET")) as [[E _]|[_ T]].
  - right; left; reflexivity.
  - discriminate E.
  - exact T.
Defined.

(** X3.  When a required variable is unset or empty, [main] exits with
    status 1 before anything else happens: no remote call is issued, the
    workflow prints nothing and the redirect line is not printed. *)
Theorem main_missing_credentials accepts fuel (env : Env) url w :
  truthy (env "SPOTIFY_CLIENT_ID") = false \/
  truthy (env "SPOTIFY_CLIENT_SECRET") = false ->
  status (main accepts fuel env url w) = Exited 1 /\
  service (main accepts fuel env url w) = w /\
  (forall r, ~ In (CliUsingRedirect r) (printed (main accepts fuel env url w))).
Proof.
  intros H. unfold main, get_credentials.
  destruct (truthy (env "SPOTIFY_CLIENT_ID")) eqn:Ti;
  destruct (truthy (env "SPOTIFY_CLIENT_SECRET")) eqn:Ts;
  try (destruct H; discriminate); cbn [app map status service printed];
  (split; [reflexivity|]); (split; [reflexivity|]);
  intros r Hr; simpl in Hr;
  repeat (destruct Hr as [Hr|Hr]; try discriminate); exact Hr.
Qed.

Lemma main_missing_credentials_witness :
  let w := demo_world (demo_uris 3) 100 never in
  truthy (demo_env_empty_secret "SPOTIFY_CLIENT_SECRET") = false /\
  status (main accepts_all 5 demo_env_empty_secret demo_url w) = Exited 1 /\
  service (main accepts_all 5 demo_env_empty_secret demo_url w) = w.
Proof.
  intros w. split; [reflexivity|].
  destruct (main_missing_credentials accepts_all 5 demo_env_empty_secret
              demo_url w (or_intror eq_refl)) as [H1 [H2 _]].
  now split.
Defined.

Lemma main_with_credentials accepts fuel (env : Env) url w :
  truthy (env "SPOTIFY_CLIENT_ID") = true ->
  truthy (env "SPOTIFY_CLIENT_SECRET") = true ->
  main accepts fuel env url w =
  let redirect :=
    match env "SPOTIFY_REDIRECT_URI" with
    | Some v => v
    | None => "http://localhost:8888/callback"
    end in
  if encodable redirect then
    if accepts (env "SPOTIFY_CLIENT_ID") (env "SPOTIFY_CLIENT_SECRET") redirect
    then
      match refresh_playlist fuel url w with
      | (Val success, w') =>
          mkProcess (Exited (if success then 0 else 1))
                    [CliUsingRedirect redirect] w'
      | (Exc e, w') => mkProcess (Uncaught e) [CliUsingRedirect redirect] w'
      | (OutOfFuel, w') => mkProcess Running [CliUsingRedirect redirect] w'
      end
    else mkProcess (Uncaught SpotifyOauthError) [CliUsingRedirect redirect] w
  else mkProcess (Uncaught (UnicodeEncodeError redirect)) [] w.
Proof.
  intros Ti Ts. unfold main, get_credentials. rewrite Ti, Ts. reflexivity.
Qed.

(** X4.  With both credentials set, [main] goes on as follows.  If
    standard output cannot encode the redirect URI, printing its line
    raises [UnicodeEncodeError] and the process dies before anything is
    called.  If the constructor of the client does not take the
    credentials, its [SpotifyOauthError] ends the process, the redirect
    line printed and nothing called.  Otherwise the workflow runs: the
    exit status is 0 exactly when [refresh_playlist] returns [True] and 1
    exactly when it returns [False]; the only exception that ends the
    process is the [UnicodeEncodeError] of an unresolved reference that
    standard output cannot encode; and with a positive page size the
    process ends. *)
Theorem main_exit_status accepts fuel (env : Env) url w :
  truthy (env "SPOTIFY_CLIENT_ID") = true ->
  truthy (env "SPOTIFY_CLIENT_SECRET") = true ->
  let redirect :=
    match env "SPOTIFY_REDIRECT_URI" with
    | Some v => v
    | None => "http://localhost:8888/callback"
    end in
  let ok := accepts (env "SPOTIFY_CLIENT_ID") (env "SPOTIFY_CLIENT_SECRET")
                    redirect in
  let p := main accepts fuel env url w in
  (encodable redirect = false ->
   status p = Uncaught (UnicodeEncodeError redirect) /\
   service p = w /\ printed p = []) /\
  (encodable redirect = true -> ok = false ->
   status p = Uncaught SpotifyOauthError /\
   service p = w /\ printed p = [CliUsingRedirect redirect]) /\
  (encodable redirect = true -> ok = true ->
   service p = snd (refresh_playlist fuel url w) /\
   printed p = [CliUsingRedirect redirect] /\
   (status p = Exited 0 <-> fst (refresh_playlist fuel url w) = Val true) /\
   (status p = Exited 1 <-> fst (refresh_playlist fuel url w) = Val false) /\
   (forall e, status p = Uncaught e <->
      e = UnicodeEncodeError url /\
      (forall lit, In lit patterns -> ~ occurs lit url) /\
      encodable url = false) /\
   (0 < w_limit w -> List.length (w_uris w) < fuel -> status p <> Running)).
Proof.
  intros Ti Ts redirect ok p. subst p.
  rewrite (main_with_credentials accepts fuel env url w Ti Ts). cbv zeta.
  fold redirect. fold ok.
  split; [|split].
  - intros E. rewrite E. now repeat split.
  - intros E O. rewrite E, O. now repeat split.
  - intros E O. rewrite E, O.
    pose proof (refresh_playlist_runs fuel url w) as [tr [msgs [R W]]].
    assert (U : forall x,
              (forall lit, In lit patterns -> ~ occurs lit url) ->
              encodable url = false ->
              refresh_playlist fuel url w = x ->
              fst x = Exc (UnicodeEncodeError url)).
    { intros x H P <-. rewrite (refresh_playlist_unresolved fuel url w H), P.
      reflexivity. }
    destruct (refresh_playlist fuel url w) as [r w'] eqn:Q.
    cbn [fst snd] in R, W.
    assert (V : forall e0,
              e0 = UnicodeEncodeError url /\
              (forall lit, In lit patterns -> ~ occurs lit url) /\
              encodable url = false -> r = Exc e0).
    { intros e0 [-> [H P]]. exact (U (r, w') H P eq_refl). }
    clear U Q.
    destruct r as [[|]|e|]; cbn [fst snd status service printed];
      (split; [reflexivity|]); (split; [reflexivity|]).
    + split; [now split|]. split; [split; discriminate|].
      split; [|discriminate].
      intros e0. split; [discriminate|]. intros H. now apply V in H.
    + split; [split; discriminate|]. split; [now split|].
      split; [|discriminate].
      intros e0. split; [discriminate|]. intros H. now apply V in H.
    + split; [split; discriminate|]. split; [split; discriminate|].
      split; [|discriminate].
      inversion R; subst.
      intros x. split.
      * intros H. inversion H; subst. split; [reflexivity|].
        split; [|assumption]. eapply extract_playlist_id_Exc_occurs; eauto.
      * intros [-> _]. reflexivity.
    + split; [split; discriminate|]. split; [split; discriminate|].
      split.
      * intros e0. split; [discriminate|]. intros H. now apply V in H.
      * intros L F _. inversion R; subst.
        match goal with H : ~ _ |- _ => apply H end. now split.
Qed.

Lemma main_exit_status_witness :
  let w := demo_world (demo_uris 3) 2 never in
  (truthy (demo_env "SPOTIFY_CLIENT_ID") = true /\
   truthy (demo_env "SPOTIFY_CLIENT_SECRET") = true) /\
  status (main accepts_redirect 5 demo_env demo_url w) = Exited 0 /\
  fst (refresh_playlist 5 demo_url w) = Val true /\
  status (main accepts_redirect 5 demo_env undecoded_url w)
  = Uncaught (UnicodeEncodeError undecoded_url).
Proof.
  intros w. split; [split; reflexivity|].
  destruct (main_exit_status accepts_redirect 5 demo_env demo_url w
              eq_refl eq_refl) as [_ [_ H]].
  destruct (H eq_refl eq_refl) as [_ [_ [H0 _]]].
  assert (E : status (main accepts_redirect 5 demo_env demo_url w) = Exited 0)
    by (vm_compute; reflexivity).
  split; [exact E|]. split; [exact (proj1 H0 E)|].
  destruct (main_exit_status accepts_redirect 5 demo_env undecoded_url w
              eq_refl eq_refl) as [_ [_ G]].
  destruct (G eq_refl eq_refl) as [_ [_ [_ [_ [G0 _]]]]].
  apply G0. split; [reflexivity|]. split; [|reflexivity].
  intros lit Hl. apply re_search_None_iff.
  destruct Hl as [<-|[<-|[<-|[]]]]; reflexivity.
Defined.

(** X5.  With both credentials set, a redirect URI that standard output
    can encode and that the constructor of the client takes, and a healthy
    service, [main] exits with status 1 on a playlist that has no eligible
    entry, although no call failed, and leaves the playlist as it was. *)
Theorem main_empty_playlist accepts fuel (env : Env) url w :
  truthy (env "SPOTIFY_CLIENT_ID") = true ->
  truthy (env "SPOTIFY_CLIENT_SECRET") = true ->
  let redirect :=
    match env "SPOTIFY_REDIRECT_URI" with
    | Some v => v
    | None => "http://localhost:8888/callback"
    end in
  encodable redirect = true ->
  accepts (env "SPOTIFY_CLIENT_ID") (env "SPOTIFY_CLIENT_SECRET") redirect
  = true ->
  extract_playlist_id url = Val (w_id w) -> no_faults w ->
  0 < w_limit w -> List.length (w_uris w) < fuel ->
  eligible_uris w = [] ->
  status (main accepts fuel env url w) = Exited 1 /\
  w_uris (service (main accepts fuel env url w)) = w_uris w /\
  all_ok (calls_of w (service (main accepts fuel env url w))).
Proof.
  intros Ti Ts redirect Er Ok X F L Hf E.
  rewrite (main_with_credentials accepts fuel env url w Ti Ts). cbv zeta.
  fold redirect. rewrite Er, Ok.
  rewrite (refresh_playlist_total fuel url w X F L Hf), E.
  cbn [status service]. split; [reflexivity|]. split.
  - cbn [advance w_uris]. apply replay_fetch_only.
    unfold fetch_only, succeeded. rewrite Forall_map. apply Forall_forall.
    intros c Hc. simpl in Hc. destruct Hc as [<-|[<-|Hc]]; try reflexivity.
    apply in_map_iff in Hc. destruct Hc as [o [<- _]]. reflexivity.
  - rewrite calls_of_advance. apply all_ok_succeeded.
Qed.

Lemma main_empty_playlist_witness :
  let w := demo_world ["spotify:local:a"; "gone"] 1 never in
  (extract_playlist_id demo_url = Val (w_id w) /\ eligible_uris w = []) /\
  status (main accepts_redirect 5 demo_env demo_url w) = Exited 1 /\
  w_uris (service (main accepts_redirect 5 demo_env demo_url w)) = w_uris w.
Proof.
  intros w. split; [split; reflexivity|].
  destruct (main_empty_playlist accepts_redirect 5 demo_env demo_url w)
    as [H1 [H2 _]]; try reflexivity.
  - intros n. reflexivity.
  - vm_compute. lia.
  - vm_compute. lia.
  - now split.
Defined.

End Credentials.

(* ================================================================== *)
(** * More on the identifier resolver *)

Section ResolverMore.

Local Open Scope string_scope.

Lemma string_app_assoc (a b c : string) : (a ++ b) ++ c = a ++ b ++ c.
Proof. induction a as [|x a IH]; simpl; [reflexivity | now rewrite IH]. Qed.

Lemma string_app_nil (a : string) : a ++ "" = a.
Proof. induction a as [|x a IH]; simpl; [reflexivity | now rewrite IH]. Qed.

Lemma re_search_here lit s g :
  match_here lit s = Some g -> re_search lit s = Some g.
Proof. intros H. destruct s; simpl; now rewrite H. Qed.

Lemma re_search_occurs lit s g : re_search lit s = Some g -> occurs lit s.
Proof.
  intros H. destruct (re_search_inv _ _ _ H) as [pre [rest [E [N [A _]]]]].
  destruct g as [|c g]; [discriminate|].
  apply all_alnum_cons in A. destruct A as [Hc _].
  exists pre, c, (g ++ rest). now split.
Qed.

(** X6.  An identifier returned by [extract_playlist_id] is a non-empty
    run of letters and digits, and resolving any of the three reference
    forms built from it gives it back. *)
Theorem extract_playlist_id_normal_form (url g : string) :
  extract_playlist_id url = Val g ->
  nonempty g = true /\ all_alnum g = true /\
  (forall r, In r (references g) -> extract_playlist_id r = Val g).
Proof.
  intros H. destruct (extract_with_Val _ _ _ H) as [lit [_ Hs]].
  destruct (re_search_inv _ _ _ Hs) as [pre [rest [_ [N [A _]]]]].
  split; [exact N|]. split; [exact A|].
  intros r Hr. apply extract_with_agree.
  - intros l Hl. now apply re_search_references.
  - now apply re_search_references_found.
Qed.

Lemma extract_playlist_id_normal_form_witness :
  extract_playlist_id "see open.spotify.com/playlist/37i9dQZF1?si=abc"
    = Val "37i9dQZF1" /\
  extract_playlist_id "spotify:playlist:37i9dQZF1" = Val "37i9dQZF1".
Proof.
  assert (H : extract_playlist_id
                "see open.spotify.com/playlist/37i9dQZF1?si=abc"
              = Val "37i9dQZF1") by reflexivity.
  split; [exact H|].
  destruct (extract_playlist_id_normal_form _ _ H) as [_ [_ R]].
  apply R. left. reflexivity.
Defined.

(** X7.  [extract_playlist_id] returns an identifier exactly when the
    reference contains the URI pattern or the [spotify.com/playlist/]
    pattern: the [open.spotify.com/playlist/] pattern accepts no reference
    that the shorter one does not accept. *)
Theorem extract_playlist_id_accepts (url : string) :
  (exists g, extract_playlist_id url = Val g) <->
  occurs "spotify:playlist:" url \/ occurs "spotify.com/playlist/" url.
Proof.
  split.
  - intros [g H]. destruct (extract_with_Val _ _ _ H) as [lit [Hl Hs]].
    apply re_search_occurs in Hs.
    destruct Hl as [<-|[<-|[<-|[]]]]; auto.
    right. destruct Hs as [pre [c [rest [E Hc]]]].
    exists (pre ++ "open."), c, rest. split; [|exact Hc].
    rewrite E, string_app_assoc. reflexivity.
  - intros [[pre [c [rest [E Hc]]]]|[pre [c [rest [E Hc]]]]]; subst url.
    + destruct (re_search_occurrence "spotify:playlist:" pre c rest Hc)
        as [g Hg].
      apply (extract_with_some patterns _ "spotify:playlist:" g);
        [now left | exact Hg].
    + destruct (re_search_occurrence "spotify.com/playlist/" pre c rest Hc)
        as [g Hg].
      apply (extract_with_some patterns _ "spotify.com/playlist/" g);
        [right; right; now left | exact Hg].
Qed.

(** X8.  A reference that starts with the URI pattern resolves to the
    letters and digits that follow it: the identifier stops at the first
    other character, and nothing after that character is looked at. *)
Theorem extract_playlist_id_uri_prefix (g rest : string) (c : ascii) :
  nonempty g = true -> all_alnum g = true -> alnum c = false ->
  extract_playlist_id ("spotify:playlist:" ++ g ++ String c rest) = Val g.
Proof.
  intros N A Hc. unfold extract_playlist_id, patterns.
  cbn [extract_with].
  rewrite (re_search_here _ _ g); [reflexivity|].
  unfold match_here. rewrite strip_prefix_app.
  rewrite take_while_app_all by assumption.
  simpl take_while. rewrite Hc, string_app_nil. cbv zeta. now rewrite N.
Qed.

Lemma extract_playlist_id_uri_prefix_witness :
  (nonempty "37i9" = true /\ all_alnum "37i9" = true /\ alnum "_" = false) /\
  extract_playlist_id
    ("spotify:playlist:" ++ "37i9"
     ++ String "_" "dQZF1 open.spotify.com/playlist/other")
  = Val "37i9".
Proof.
  split; [repeat split|].
  exact (extract_playlist_id_uri_prefix "37i9"
           "dQZF1 open.spotify.com/playlist/other" "_"
           eq_refl eq_refl eq_refl).
Defined.

End ResolverMore.

(* ================================================================== *)
(** * More on the enumeration, the batches and healthy runs *)

Section WorkflowMore.

(** X9.  When none of the three patterns occurs in the reference,
    [refresh_playlist] issues no remote call and leaves the playlist as it
    was.  If standard output can encode the reference, it prints the error
    line of the [ValueError] and returns [False]; if not, printing that
    line raises [UnicodeEncodeError], nothing is printed and the exception
    leaves [refresh_playlist]. *)
Theorem refresh_unresolved_reference fuel url w :
  (forall lit, In lit patterns -> ~ occurs lit url) ->
  calls_of w (snd (refresh_playlist fuel url w)) = [] /\
  w_uris (snd (refresh_playlist fuel url w)) = w_uris w /\
  (encodable url = true ->
   refresh_playlist fuel url w
   = (Val false, emit (MsgError (ValueError url)) w)) /\
  (encodable url = false ->
   refresh_playlist fuel url w = (Exc (UnicodeEncodeError url), w)).
Proof.
  intros H. rewrite (refresh_playlist_unresolved fuel url w H).
  assert (N : calls_of w w = []) by (unfold calls_of; apply skipn_all).
  destruct (encodable url); cbn [snd]; repeat split; auto; discriminate.
Qed.

Lemma refresh_unresolved_reference_witness :
  let w := demo_world (demo_uris 3) 2 never in
  (forall lit, In lit patterns -> ~ occurs lit "not-a-playlist") /\
  refresh_playlist 5 "not-a-playlist" w
  = (Val false, emit (MsgError (ValueError "not-a-playlist")) w).
Proof.
  intros w.
  assert (H : forall lit, In lit patterns -> ~ occurs lit "not-a-playlist").
  { intros lit Hl. apply re_search_None_iff.
    destruct Hl as [<-|[<-|[<-|[]]]]; reflexivity. }
  split; [exact H|].
  destruct (refresh_unresolved_reference 5 "not-a-playlist" w H)
    as [_ [_ [G _]]].
  exact (G eq_refl).
Defined.

(** X11.  However [get_playlist_tracks] ends, it has issued fetch calls
    only and the playlist is as before.  A list it returns is never
    partial: it holds the tracks of all eligible entries, and every fetch
    succeeded.  When a fetch fails the exception is raised at once: the
    failed call is the last one. *)
Theorem get_playlist_tracks_sound fuel pid w r w' :
  get_playlist_tracks fuel pid w = (r, w') ->
  w_uris w' = w_uris w /\
  mutations (calls_of w w') = [] /\
  (forall ts, r = Val ts ->
     ts = tracks_of (w_catalog w) (w_uris w) /\ all_ok (calls_of w w')) /\
  (forall e, r = Exc e ->
     exists done c, calls_of w w' = done ++ [(c, false)] /\ all_ok done /\
                    e = SpotifyException c).
Proof.
  intros H.
  destruct (get_playlist_tracks_run fuel pid w) as [tr [Hw [Hf Hr]]].
  rewrite H in Hw, Hr. cbn [fst snd] in Hw, Hr. subst w'.
  rewrite calls_of_advance. cbn [advance w_uris].
  split; [now apply replay_fetch_only|].
  split; [now apply mutations_fetch_only|].
  split.
  - intros ts ->. destruct Hr as [Hok ->]. now split.
  - intros e ->. destruct Hr as [tr0 [c [-> [Hok [_ ->]]]]]. eauto.
Qed.

Lemma get_playlist_tracks_sound_witness :
  let w := demo_world ("spotify:local:a" :: demo_uris 5)%string 2 (fail_at 2) in
  let res := get_playlist_tracks 9 "37i9dQZF1" w in
  fst res = Exc (SpotifyException (Next 4)) /\
  w_uris (snd res) = w_uris w /\
  mutations (calls_of w (snd res)) = [].
Proof.
  intros w res.
  split; [vm_compute; reflexivity|].
  destruct (get_playlist_tracks_sound 9 "37i9dQZF1" w (fst res) (snd res)
              (surjective_pairing _)) as [H1 [H2 _]].
  now split.
Defined.

(** X12.  On a service with a positive page size and no failing call, the
    enumeration of a playlist of [len] entries issues one fetch when the
    playlist is empty and ceil(len / limit) fetches otherwise. *)
Theorem fetch_count fuel w :
  0 < w_limit w -> no_faults w -> List.length (w_uris w) < fuel ->
  List.length (calls_of w (snd (get_playlist_tracks fuel (w_id w) w)))
  = Nat.max 1 ((List.length (w_uris w) + w_limit w - 1) / w_limit w).
Proof.
  intros L F Hf. rewrite get_playlist_tracks_total by assumption.
  cbn [snd]. rewrite calls_of_advance.
  unfold succeeded, fetch_calls, range. rewrite length_map.
  cbn [List.length]. rewrite length_map.
  rewrite (length_range_from (w_limit w) L) by lia.
  destruct (List.length (w_uris w)) as [|n] eqn:E.
  - replace (0 - w_limit w + w_limit w - 1) with (w_limit w - 1) by lia.
    replace (0 + w_limit w - 1) with (w_limit w - 1) by lia.
    rewrite Nat.div_small by lia. reflexivity.
  - rewrite (ceil_step (w_limit w) L (S n)) by lia. lia.
Qed.

Lemma fetch_count_witness :
  let w := demo_world (demo_uris 250) 100 never in
  (0 < w_limit w /\ no_faults w /\ List.length (w_uris w) < 300) /\
  List.length (calls_of w (snd (get_playlist_tracks 300 (w_id w) w))) = 3.
Proof.
  intros w.
  assert (L : 0 < w_limit w) by (vm_compute; lia).
  assert (F : no_faults w) by (intros n; reflexivity).
  assert (Hf : List.length (w_uris w) < 300)
    by (apply Nat.ltb_lt; vm_compute; reflexivity).
  split; [auto|].
  rewrite (fetch_count 300 w L F Hf). vm_compute. reflexivity.
Defined.

Lemma nth_range_from stop step : 0 < step -> forall n i k,
  stop - i <= n ->
  k < List.length (range_from n i stop step) ->
  nth k (range_from n i stop step) 0 = i + k * step /\ i + k * step < stop.
Proof.
  intros Hs. induction n as [|n IH]; intros i k Hn Hk; [simpl in Hk; lia|].
  simpl in Hk |- *. destruct (i <? stop) eqn:E; [|simpl in Hk; lia].
  apply Nat.ltb_lt in E. destruct k as [|k]; [simpl; lia|].
  simpl in Hk. destruct (IH (i + step) k) as [H1 H2]; [lia | lia |].
  cbn [nth]. rewrite H1. lia.
Qed.

(** X13.  The batch number [k] of a list is its slice [100k, 100k + 100):
    it is never empty and holds min(100, M - 100k) URIs, so every batch but
    the last one is full. *)
Theorem batches_nth (uris : list string) (k : nat) :
  k < List.length (batches uris) ->
  nth k (batches uris) [] = firstn 100 (skipn (100 * k) uris) /\
  100 * k < List.length uris /\
  List.length (nth k (batches uris) [])
  = Nat.min 100 (List.length uris - 100 * k).
Proof.
  intros Hk. unfold batches in *. rewrite length_map in Hk.
  destruct (nth_range_from (List.length uris) 100 ltac:(lia)
              (List.length uris) 0 k ltac:(lia) Hk) as [H1 H2].
  assert (E : nth k (map (fun i => slice uris i (i + 100))
                         (range 0 (List.length uris) 100)) []
              = firstn 100 (skipn (100 * k) uris)).
  { rewrite (nth_indep _ [] (slice uris 0 (0 + 100)))
      by (now rewrite length_map).
    rewrite (map_nth (fun i => slice uris i (i + 100))).
    unfold range. rewrite H1. unfold slice.
    replace (0 + k * 100 + 100 - (0 + k * 100)) with 100 by lia.
    do 2 f_equal. lia. }
  split; [exact E|]. split; [lia|].
  rewrite E, length_firstn, length_skipn. reflexivity.
Qed.

Lemma batches_nth_witness :
  2 < List.length (batches (demo_uris 250)) /\
  List.length (nth 2 (batches (demo_uris 250)) []) = 50.
Proof.
  assert (H : 2 < List.length (batches (demo_uris 250)))
    by (apply Nat.ltb_lt; vm_compute; reflexivity).
  split; [exact H|].
  destruct (batches_nth (demo_uris 250) 2 H) as [_ [_ E]].
  rewrite E. vm_compute. reflexivity.
Defined.

(** X14.  When the reference names the hosted playlist, no call fails, the
    page size is positive and the playlist has an eligible entry,
    [refresh_playlist] returns [True] after exactly these calls, all
    successful: the metadata fetch, the page fetches, one removal per
    batch and one insertion per batch, that is 2 ceil(N / 100) mutation
    calls for N eligible entries. *)
Theorem refresh_healthy fuel url w :
  extract_playlist_id url = Val (w_id w) -> no_faults w ->
  0 < w_limit w -> List.length (w_uris w) < fuel ->
  eligible_uris w <> [] ->
  fst (refresh_playlist fuel url w) = Val true /\
  calls_of w (snd (refresh_playlist fuel url w))
  = succeeded (Playlist (w_id w) :: fetch_calls w
               ++ removal_calls (w_id w) (eligible_uris w)
               ++ insertion_calls (w_id w) (eligible_uris w)) /\
  List.length (mutations (calls_of w (snd (refresh_playlist fuel url w))))
  = 2 * ((List.length (eligible_uris w) + 99) / 100).
Proof.
  intros X F L Hf N.
  rewrite (refresh_playlist_total fuel url w X F L Hf).
  destruct (eligible_uris w) as [|u us] eqn:E; [congruence|].
  rewrite <- E. cbn [fst snd]. rewrite calls_of_advance.
  split; [reflexivity|]. split; [reflexivity|].
  change (Playlist (w_id w) :: fetch_calls w ++ ?x)
    with ((Playlist (w_id w) :: fetch_calls w) ++ x).
  rewrite !succeeded_app, !mutations_app.
  rewrite (mutations_fetch_only (succeeded (Playlist (w_id w) :: fetch_calls w))).
  - rewrite !mutations_succeeded
      by (apply removal_calls_mutations || apply insertion_calls_mutations).
    cbn [app]. rewrite length_app. unfold removal_calls, insertion_calls.
    rewrite !length_map, batches_length. lia.
  - unfold fetch_only, succeeded. rewrite Forall_map. apply Forall_forall.
    intros c Hc. simpl in Hc. destruct Hc as [<-|[<-|Hc]]; try reflexivity.
    apply in_map_iff in Hc. destruct Hc as [o [<- _]]. reflexivity.
Qed.

Lemma refresh_healthy_witness :
  let w := demo_world (demo_uris 250) 100 never in
  (extract_playlist_id demo_url = Val (w_id w) /\ eligible_uris w <> []) /\
  fst (refresh_playlist 300 demo_url w) = Val true /\
  List.length (mutations (calls_of w (snd (refresh_playlist 300 demo_url w))))
  = 6.
Proof.
  intros w.
  assert (N : eligible_uris w <> []) by (vm_compute; discriminate).
  split; [split; [reflexivity | exact N]|].
  destruct (refresh_healthy 300 demo_url w) as [H1 [_ H3]];
    try reflexivity; try exact N.
  - intros n. reflexivity.
  - vm_compute. lia.
  - apply Nat.ltb_lt. vm_compute. reflexivity.
  - split; [exact H1|]. rewrite H3. vm_compute. reflexivity.
Defined.

End WorkflowMore.

(* ================================================================== *)
(** * Invariants of the call history *)

Section LogInvariant.

(** A property [Q] of the history that is kept when a call satisfying [P]
    is recorded. *)
Variable Q : trace -> Prop.
Variable P : Call -> Prop.
Hypothesis Q_step : forall l c ok, Q l -> P c -> Q (l ++ [(c, ok)]).

Lemma keeps_invoke {A} c (known : World -> bool) (reply : World -> A) :
  P c -> keeps Q (fun w => invoke c (known w) reply w).
Proof.
  intros Hc w Hw. unfold invoke.
  destruct (w_faults w (List.length (w_log w)) || negb (known w));
    cbn [snd record_call set_uris w_log]; now apply Q_step.
Qed.

Lemma keeps_print m : keeps Q (print m).
Proof.
  intros w Hw. unfold print.
  destruct (echo m) as [text|]; [destruct (encodable text)|]; exact Hw.
Qed.

Lemma keeps_ret {A} (a : A) : keeps Q (ret a).
Proof. intros w Hw. exact Hw. Qed.

Lemma keeps_bind {A B} (m : M A) (k : A -> M B) :
  keeps Q m ->
  (forall a w w1, m w = (Val a, w1) -> Q (w_log w1) ->
                  Q (w_log (snd (k a w1)))) ->
  keeps Q (bind m k).
Proof.
  intros Hm Hk w Hw. unfold bind. specialize (Hm w Hw).
  destruct (m w) as [[a|e|] w1] eqn:E; cbn [snd] in *; eauto.
Qed.

Lemma keeps_seq {A B} (m : M A) (k : A -> M B) :
  keeps Q m -> (forall a, keeps Q (k a)) -> keeps Q (bind m k).
Proof. intros Hm Hk. apply keeps_bind; [exact Hm|]. intros a w w1 _. apply Hk. Qed.

Lemma keeps_try_except {A} (m : M A) (h : exn -> M A) :
  keeps Q m -> (forall e, keeps Q (h e)) -> keeps Q (try_except m h).
Proof.
  intros Hm Hh w Hw. unfold try_except. specialize (Hm w Hw).
  destruct (m w) as [[a|e|] w1]; cbn [snd] in *; auto. now apply Hh.
Qed.

Lemma keeps_for_each {A} (xs : list A) (body : A -> M unit) :
  (forall x, keeps Q (body x)) -> keeps Q (for_each xs body).
Proof.
  intros Hb. induction xs as [|x xs IH]; [apply keeps_ret|].
  cbn [for_each]. apply keeps_seq; auto.
Qed.

Lemma keeps_pages_loop fuel :
  (forall o, P (Next o)) ->
  forall results tracks, keeps Q (pages_loop fuel results tracks).
Proof.
  intros Hn. induction fuel as [|fuel IH]; intros results tracks.
  - intros w Hw. exact Hw.
  - cbn [pages_loop]. destruct (next results) as [o|]; [|apply keeps_ret].
    apply keeps_seq; [|intros a; apply IH].
    unfold sp_next. apply (keeps_invoke (Next o) (fun _ => true)). apply Hn.
Qed.

Lemma keeps_refresh_playlist fuel url :
  (forall o, P (Next o)) ->
  (forall pid, extract_playlist_id url = Val pid ->
     P (Playlist pid) /\ P (PlaylistTracks pid) /\
     (forall b, P (RemoveAllOccurrences pid b)) /\
     (forall b, P (AddItems pid b))) ->
  keeps Q (refresh_playlist fuel url).
Proof.
  intros Hn Hp. unfold refresh_playlist, refresh_body.
  apply keeps_try_except;
    [| intros e; apply keeps_seq; [apply keeps_print | intros; apply keeps_ret]].
  apply keeps_bind; [intros w Hw; exact Hw|].
  intros pid w w1 E Hw1. inversion E; subst w1. clear E.
  match goal with H : extract_playlist_id url = Val pid |- _ =>
    destruct (Hp pid H) as [P1 [P2 [P3 P4]]] end.
  revert Hw1. generalize w. clear w. 
  apply keeps_seq; [apply keeps_print|]. intros _.
  apply keeps_seq; [apply (keeps_invoke (Playlist pid) (hosted pid)), P1|].
  intros info.
  apply keeps_seq; [apply keeps_print|]. intros _.
  apply keeps_seq.
  { unfold get_playlist_tracks. apply keeps_seq.
    - apply (keeps_invoke (PlaylistTracks pid) (hosted pid)), P2.
    - intros a. now apply keeps_pages_loop. }
  intros [|t ts].
  { apply keeps_seq; [apply keeps_print | intros; apply keeps_ret]. }
  apply keeps_seq; [apply keeps_print|]. intros _.
  apply keeps_seq; [apply keeps_print|]. intros _.
  apply keeps_seq.
  { apply keeps_for_each. intros i.
    apply (keeps_invoke (RemoveAllOccurrences pid _) (hosted pid)), P3. }
  intros _.
  apply keeps_seq; [apply keeps_print|]. intros _.
  apply keeps_seq.
  { apply keeps_for_each. intros i.
    apply (keeps_invoke (AddItems pid _) (hosted pid)), P4. }
  intros _.
  apply keeps_seq; [apply keeps_print | intros; apply keeps_ret].
Qed.

End LogInvariant.

Section Targets.

(** X10.  Every remote call of a run that names a playlist names the
    identifier resolved from the reference: [refresh_playlist] touches no
    other playlist. *)
Theorem refresh_calls_target fuel url w c ok p :
  In (c, ok) (calls_of w (snd (refresh_playlist fuel url w))) ->
  target c = Some p ->
  extract_playlist_id url = Val p.
Proof.
  intros Hin Ht.
  set (P := fun c : Call =>
              forall q, target c = Some q -> extract_playlist_id url = Val q).
  set (Q := fun l : trace =>
              exists tr, l = w_log w ++ tr /\ Forall (fun e => P (fst e)) tr).
  assert (K : keeps Q (refresh_playlist fuel url)).
  { apply (keeps_refresh_playlist Q P).
    - intros l c0 ok0 [tr [-> Hf]] Hc. exists (tr ++ [(c0, ok0)]).
      split; [now rewrite app_assoc|].
      apply Forall_app. split; [exact Hf | now constructor].
    - intros o q. discriminate.
    - intros pid E. unfold P. repeat split; intros; simpl in *; congruence. }
  destruct (K w) as [tr [E Hf]].
  { exists []. split; [now rewrite app_nil_r | constructor]. }
  unfold calls_of in Hin. rewrite E in Hin.
  rewrite skipn_app, skipn_all, Nat.sub_diag in Hin. cbn [app skipn] in Hin.
  rewrite Forall_forall in Hf. exact (Hf _ Hin p Ht).
Qed.

Lemma refresh_calls_target_witness :
  let w := demo_world (demo_uris 3) 2 never in
  let c := AddItems "37i9dQZF1" (demo_uris 3) in
  In (c, true) (calls_of w (snd (refresh_playlist 5 demo_url w))) /\
  extract_playlist_id demo_url = Val "37i9dQZF1".
Proof.
  intros w c.
  assert (H : In (c, true) (calls_of w (snd (refresh_playlist 5 demo_url w))))
    by (vm_compute; pick).
  split; [exact H|].
  exact (refresh_calls_target 5 demo_url w c true "37i9dQZF1" H eq_refl).
Defined.

End Targets.

(* ================================================================== *)
(** * The playlist after a run *)

Section Aftermath.

Lemma refresh_success_uris fuel url w w' :
  refresh_playlist fuel url w = (Val true, w') ->
  w_uris w' = skipped_uris w ++ eligible_uris w /\
  w_catalog w' = w_catalog w.
Proof.
  intros H.
  destruct (refresh_cases _ _ _ _ _ H) as [tr [msgs [R [W _]]]].
  inversion R; subst tr msgs. rewrite W. cbn [advance w_uris w_catalog].
  split; [now apply replay_refresh | reflexivity].
Qed.

Lemma filter_all {A} (p : A -> bool) l :
  (forall x, In x l -> p x = true) -> filter p l = l.
Proof.
  induction l as [|x l IH]; intros H; simpl; [reflexivity|].
  rewrite (H x) by now left. f_equal. apply IH. intros y Hy. apply H. now right.
Qed.

Lemma filter_nothing {A} (p : A -> bool) l :
  (forall x, In x l -> p x = true) -> filter (fun x => negb (p x)) l = [].
Proof.
  induction l as [|x l IH]; intros H; simpl; [reflexivity|].
  rewrite (H x) by now left. simpl. apply IH. intros y Hy. apply H. now right.
Qed.

Lemma filter_none_neg {A} (p : A -> bool) l :
  filter (fun x => negb (p x)) (filter p l) = [].
Proof.
  rewrite filter_filter. induction l as [|x l IH]; simpl; [reflexivity|].
  now destruct (p x).
Qed.

(** X15.  A second successful refresh changes nothing: after two runs that
    both return [True], the playlist is entry for entry what it was after
    the first. *)
Theorem refresh_twice fuel1 url1 fuel2 url2 w w1 w2 :
  refresh_playlist fuel1 url1 w = (Val true, w1) ->
  refresh_playlist fuel2 url2 w1 = (Val true, w2) ->
  w_uris w2 = w_uris w1.
Proof.
  intros H1 H2.
  destruct (refresh_success_uris _ _ _ _ H1) as [U1 C1].
  destruct (refresh_success_uris _ _ _ _ H2) as [U2 _].
  rewrite U2. unfold skipped_uris, eligible_uris. rewrite C1, U1.
  unfold skipped_uris, eligible_uris. rewrite !filter_app.
  rewrite (filter_idem (fun u => negb (eligible (w_catalog w) u))).
  rewrite filter_none_neg, filter_none, filter_idem.
  now rewrite app_nil_r.
Qed.

Lemma refresh_twice_witness :
  let w := demo_world ("spotify:track:z" :: "spotify:local:a"
                       :: demo_uris 120)%string 50 never in
  let w1 := snd (refresh_playlist 200 demo_url w) in
  let w2 := snd (refresh_playlist 200 demo_url w1) in
  (refresh_playlist 200 demo_url w = (Val true, w1) /\
   refresh_playlist 200 demo_url w1 = (Val true, w2)) /\
  w_uris w1 <> w_uris w /\
  w_uris w2 = w_uris w1.
Proof.
  intros w w1 w2.
  assert (H1 : refresh_playlist 200 demo_url w = (Val true, w1))
    by (vm_compute; reflexivity).
  assert (H2 : refresh_playlist 200 demo_url w1 = (Val true, w2))
    by (vm_compute; reflexivity).
  split; [exact (conj H1 H2)|]. split.
  - intros E. apply (f_equal (fun l => hd EmptyString l)) in E.
    vm_compute in E. discriminate.
  - exact (refresh_twice 200 demo_url 200 demo_url w w1 w2 H1 H2).
Defined.

(** X16.  When every entry of the playlist is eligible, a successful
    refresh leaves the playlist entry for entry as it was, order and
    duplicates included. *)
Theorem refresh_all_eligible fuel url w w' :
  refresh_playlist fuel url w = (Val true, w') ->
  (forall u, In u (w_uris w) -> eligible (w_catalog w) u = true) ->
  w_uris w' = w_uris w.
Proof.
  intros H A. destruct (refresh_success_uris _ _ _ _ H) as [U _].
  rewrite U. unfold skipped_uris, eligible_uris.
  now rewrite filter_nothing, filter_all.
Qed.

Lemma refresh_all_eligible_witness :
  let w := demo_world (demo_uris 120) 50 never in
  let w' := snd (refresh_playlist 200 demo_url w) in
  (refresh_playlist 200 demo_url w = (Val true, w') /\
   forallb (eligible (w_catalog w)) (w_uris w) = true) /\
  w_uris w' = w_uris w.
Proof.
  intros w w'.
  assert (H : refresh_playlist 200 demo_url w = (Val true, w'))
    by (vm_compute; reflexivity).
  assert (A : forallb (eligible (w_catalog w)) (w_uris w) = true)
    by (vm_compute; reflexivity).
  split; [exact (conj H A)|].
  apply (refresh_all_eligible 200 demo_url w w' H).
  intros u Hu. rewrite forallb_forall in A. now apply A.
Defined.

(** The call that failed in a run, and what the run had done before. *)
Lemma refresh_run_failed_call fuel w url r tr msgs c :
  refresh_run fuel w url r tr msgs -> In (c, false) tr ->
  is_mutation c = false \/
  (exists pid pre b post,
     c = RemoveAllOccurrences pid b /\
     batches (eligible_uris w) = pre ++ b :: post /\
     replay tr (w_uris w)
     = filter (fun u => negb (mem u (List.concat pre))) (w_uris w) /\
     Forall (fun e => is_addition (fst e) = false) tr) \/
  (exists pid pre b post,
     c = AddItems pid b /\
     batches (eligible_uris w) = pre ++ b :: post /\
     replay tr (w_uris w) = skipped_uris w ++ List.concat pre).
Proof.
  intros R Hin.
  assert (Q : all_ok tr -> False)
    by (intros Hok; now apply not_failed_in_ok in Hin).
  inversion R; subst.
  - destruct Hin.
  - destruct Hin.
  - left. destruct Hin as [E|[]]. now inversion E.
  - left.
    change ((Playlist pid, true) :: ftr ++ [(c0, false)])
      with (((Playlist pid, true) :: ftr) ++ [(c0, false)]) in Hin.
    apply failed_is_last in Hin; [now subst | now constructor].
  - exfalso. apply Q. now constructor.
  - exfalso. apply Q. now constructor.
  - right. left. exists pid, pre, b, post.
    assert (E : (Playlist pid, true) :: ftr
                ++ succeeded (map (RemoveAllOccurrences pid) pre)
                ++ [(RemoveAllOccurrences pid b, false)]
              = ((Playlist pid, true) :: ftr)
                ++ succeeded (map (RemoveAllOccurrences pid) pre)
                ++ [(RemoveAllOccurrences pid b, false)]) by reflexivity.
    rewrite E in *. clear E.
    assert (Hc : c = RemoveAllOccurrences pid b).
    { rewrite app_assoc in Hin. apply failed_is_last in Hin; [exact Hin|].
      apply all_ok_app; [now constructor | apply all_ok_succeeded]. }
    split; [exact Hc|]. split; [assumption|]. split.
    + rewrite !replay_app.
      rewrite (replay_fetch_only ((Playlist pid, true) :: ftr))
        by (constructor; [reflexivity | assumption]).
      now rewrite replay_removals.
    + apply Forall_app; split.
      * constructor; [reflexivity|].
        match goal with H : fetch_only ftr |- _ =>
          revert H; apply Forall_impl end.
        intros [c1 o1]. simpl. now destruct c1.
      * apply Forall_app; split; [|now repeat constructor].
        unfold succeeded. rewrite !Forall_map. now apply Forall_forall.
  - right. right. exists pid, pre, b, post.
    assert (E : (Playlist pid, true) :: ftr
                ++ succeeded (removal_calls pid (eligible_uris w))
                ++ succeeded (map (AddItems pid) pre)
                ++ [(AddItems pid b, false)]
              = ((Playlist pid, true) :: ftr)
                ++ succeeded (removal_calls pid (eligible_uris w))
                ++ succeeded (map (AddItems pid) pre)
                ++ [(AddItems pid b, false)]) by reflexivity.
    rewrite E in *. clear E.
    assert (Hc : c = AddItems pid b).
    { rewrite !app_assoc in Hin. apply failed_is_last in Hin; [exact Hin|].
      repeat apply all_ok_app; auto using all_ok_succeeded.
      now constructor. }
    split; [exact Hc|]. split; [assumption|].
    rewrite !replay_app.
    rewrite (replay_fetch_only ((Playlist pid, true) :: ftr))
      by (constructor; [reflexivity | assumption]).
    unfold removal_calls.
    rewrite replay_removals, replay_insertions, batches_concat.
    unfold eligible_uris at 1. rewrite filter_not_mem_filter.
    reflexivity.
  - exfalso. apply Q. constructor; [reflexivity|].
    repeat apply all_ok_app; auto using all_ok_succeeded.
Qed.

(** X17.  When an insertion call fails, every eligible URI has been
    removed and only the batches inserted before the failure are back: the
    playlist holds the skipped entries followed by those batches, and the
    URIs of the failed batch and of the later ones are not re-added. *)
Theorem insertion_failure_state fuel url w r w' p b :
  refresh_playlist fuel url w = (r, w') ->
  In (AddItems p b, false) (calls_of w w') ->
  r = Val false /\
  exists pre post,
    batches (eligible_uris w) = pre ++ b :: post /\
    w_uris w' = skipped_uris w ++ List.concat pre.
Proof.
  intros H Hin.
  destruct (refresh_cases _ _ _ _ _ H) as [tr [msgs [R [W C]]]].
  rewrite C in Hin.
  destruct (refresh_run_failure _ _ _ _ _ _ _ R Hin) as [Hr _].
  split; [exact Hr|].
  destruct (refresh_run_failed_call _ _ _ _ _ _ _ R Hin)
    as [F|[[pid [pre [b0 [post [E _]]]]]|[pid [pre [b0 [post [E [B U]]]]]]]];
    try discriminate.
  inversion E; subst. exists pre, post. split; [exact B | exact U].
Qed.

Lemma insertion_failure_state_witness :
  let w := demo_world ("spotify:local:a" :: demo_uris 250)%string 100
                      (fail_at 8) in
  let w' := snd (refresh_playlist 300 demo_url w) in
  let b := slice (demo_uris 250) 100 200 in
  In (AddItems "37i9dQZF1" b, false) (calls_of w w') /\
  fst (refresh_playlist 300 demo_url w) = Val false /\
  w_uris w' = ("spotify:local:a" :: demo_uris 100)%string.
Proof.
  intros w w' b.
  assert (Hin : In (AddItems "37i9dQZF1" b, false) (calls_of w w'))
    by (vm_compute; pick).
  split; [exact Hin|].
  destruct (insertion_failure_state 300 demo_url w
              (fst (refresh_playlist 300 demo_url w)) w' "37i9dQZF1" b
              (surjective_pairing _) Hin) as [Hr _].
  split; [exact Hr | vm_compute; reflexivity].
Defined.

(** X18.  When a removal call fails, the playlist has lost exactly the
    URIs of the batches removed before the failure, and nothing is
    re-added: the run contains no insertion call. *)
Theorem removal_failure_state fuel url w r w' p b :
  refresh_playlist fuel url w = (r, w') ->
  In (RemoveAllOccurrences p b, false) (calls_of w w') ->
  r = Val false /\
  Forall (fun e => is_addition (fst e) = false) (calls_of w w') /\
  exists pre post,
    batches (eligible_uris w) = pre ++ b :: post /\
    w_uris w'
    = filter (fun u => negb (mem u (List.concat pre))) (w_uris w).
Proof.
  intros H Hin.
  destruct (refresh_cases _ _ _ _ _ H) as [tr [msgs [R [W C]]]].
  rewrite C in *.
  destruct (refresh_run_failure _ _ _ _ _ _ _ R Hin) as [Hr _].
  split; [exact Hr|].
  destruct (refresh_run_failed_call _ _ _ _ _ _ _ R Hin)
    as [F|[[pid [pre [b0 [post [E [B [U A]]]]]]]|[pid [pre [b0 [post [E _]]]]]]];
    try discriminate.
  inversion E; subst. split; [exact A|].
  exists pre, post. split; [exact B|]. exact U.
Qed.

Lemma removal_failure_state_witness :
  let w := demo_world ("spotify:local:a" :: demo_uris 250)%string 100
                      (fail_at 4) in
  let w' := snd (refresh_playlist 300 demo_url w) in
  let b := slice (demo_uris 250) 0 100 in
  In (RemoveAllOccurrences "37i9dQZF1" b, false) (calls_of w w') /\
  fst (refresh_playlist 300 demo_url w) = Val false /\
  w_uris w' = w_uris w.
Proof.
  intros w w' b.
  assert (Hin : In (RemoveAllOccurrences "37i9dQZF1" b, false) (calls_of w w'))
    by (vm_compute; pick).
  split; [exact Hin|].
  destruct (removal_failure_state 300 demo_url w
              (fst (refresh_playlist 300 demo_url w)) w' "37i9dQZF1" b
              (surjective_pairing _) Hin) as [Hr _].
  split; [exact Hr | vm_compute; reflexivity].
Defined.

End Aftermath.

Section Output.

(** X19.  What is printed tells an empty playlist from a failure.  A run
    that returns [False] either printed "No tracks found in playlist." and
    no error line, and then the playlist has no eligible entry and no call
    failed; or it printed an error line and not that message, and then the
    reference was not resolved or a remote call failed. *)
Theorem refresh_false_output fuel url w w' :
  refresh_playlist fuel url w = (Val false, w') ->
  exists msgs,
    w_out w' = w_out w ++ msgs /\
    ((In MsgNoTracks msgs /\ (forall e, ~ In (MsgError e) msgs) /\
      eligible_uris w = [] /\ all_ok (calls_of w w')) \/
     (exists e,
        In (MsgError e) msgs /\ ~ In MsgNoTracks msgs /\
        (extract_playlist_id url = Exc e \/
         exists c, e = SpotifyException c /\ In (c, false) (calls_of w w')))).
Proof.
  intros H.
  destruct (refresh_cases _ _ _ _ _ H) as [tr [msgs [R [W C]]]].
  exists msgs. split; [now rewrite W|]. rewrite C.
  inversion R; subst tr msgs.
  - right. exists e. out_cases.
  - right. exists (SpotifyException (Playlist pid)).
    split; [out_cases|]. split; [out_cases|].
    right. exists (Playlist pid). split; [reflexivity | now left].
  - right. exists (SpotifyException c).
    split; [out_cases|]. split; [out_cases|].
    right. exists c. split; [reflexivity|].
    right. apply in_or_app. right. now left.
  - left. split; [out_cases|]. split; [intros e; out_cases|].
    split; [assumption | now constructor].
  - right. exists (SpotifyException (RemoveAllOccurrences pid b)).
    split; [out_cases|]. split; [out_cases|].
    right. exists (RemoveAllOccurrences pid b). split; [reflexivity|].
    right. apply in_or_app. right. apply in_or_app. right. now left.
  - right. exists (SpotifyException (AddItems pid b)).
    split; [out_cases|]. split; [out_cases|].
    right. exists (AddItems pid b). split; [reflexivity|].
    right. do 3 (apply in_or_app; right). now left.
Qed.

Lemma refresh_false_output_witness :
  let w := demo_world ["spotify:local:a"; "gone"]%string 1 never in
  let w' := snd (refresh_playlist 5 demo_url w) in
  refresh_playlist 5 demo_url w = (Val false, w') /\
  exists msgs,
    w_out w' = w_out w ++ msgs /\
    ((In MsgNoTracks msgs /\ (forall e, ~ In (MsgError e) msgs) /\
      eligible_uris w = [] /\ all_ok (calls_of w w')) \/
     (exists e,
        In (MsgError e) msgs /\ ~ In MsgNoTracks msgs /\
        (extract_playlist_id demo_url = Exc e \/
         exists c, e = SpotifyException c /\ In (c, false) (calls_of w w')))).
Proof.
  intros w w'.
  assert (H : refresh_playlist 5 demo_url w = (Val false, w'))
    by (vm_compute; reflexivity).
  split; [exact H|].
  exact (refresh_false_output 5 demo_url w w' H).
Defined.

End Output.
